(** * tsCognilint: the complexity-to-diagnostic pipeline of [src/extension.ts]

    A shallow embedding of the extension's score aggregation
    ([getScoreSum], [flattenInner]), symbol matching
    ([filterFunctionSymbols] and the [find] of [processActiveFile]),
    severity classification, and the debounced per-document analysis
    ([processActiveFile], the close handler, the timer callback), with the
    properties of the specification stated and proved over it.

    JavaScript numbers that the extension handles are integers (scores,
    lines, columns, thresholds); they are modelled as [Z].  An optional
    field is an [option]; [x || 0] is [orZero x] and the truth value of an
    optional number is [truthy]. *)

From Stdlib Require Import Ascii.
From stdpp Require Import gmap strings list fin_maps pretty.

Open Scope Z_scope.

(** ** Complexity items (lines 14-18) *)

#[warnings="-register-all"]
Inductive ComplexityItem : Type :=
  mkItem { score : option Z;
           line : option Z;
           inner : option (list ComplexityItem) }.

(** [n || 0] on an optional number. *)
Definition orZero (n : option Z) : Z := default 0 n.

(** The truth value JavaScript gives an optional number: [undefined] and
    [0] are false. *)
Definition truthy (n : option Z) : bool :=
  match n with
  | Some v => negb (v =? 0)
  | None => false
  end.

(** *** getScoreSum (lines 79-84)

    The callback of [inner.reduce]; [rec item] stands for the recursive
    call [getScoreSum(item.inner || [])]. *)
Definition scoreReducer (rec : ComplexityItem -> Z)
    (acc : Z) (item : ComplexityItem) : Z :=
  let sum := rec item in
  acc + orZero (score item) + sum.

(** [innerScoreSum item] is [getScoreSum(item.inner || [])]; the recursion
    goes through the items of [item.inner]. *)
Fixpoint innerScoreSum (item : ComplexityItem) : Z :=
  match inner item with
  | Some l => fold_left (scoreReducer innerScoreSum) l 0
  | None => 0
  end.

Definition getScoreSum (inner : list ComplexityItem) : Z :=
  fold_left (scoreReducer innerScoreSum) inner 0.

(** *** flattenInner (lines 91-100)

    The callback of [(inner || []).reduce]; [nested item] stands for the
    recursive call [flattenInner(item.inner || [])].  [acc.push] followed by
    [acc.concat] appends at the end of the accumulator. *)
Definition flattenReducer (nested : ComplexityItem -> list ComplexityItem)
    (acc : list ComplexityItem) (item : ComplexityItem) : list ComplexityItem :=
  let nestedFlattened := nested item in
  let adjustedScore := orZero (score item) - getScoreSum (default [] (inner item)) in
  let acc' :=
    if (0 <? adjustedScore) && truthy (line item)
    then acc ++ [mkItem (Some adjustedScore) (line item) (inner item)]
    else acc in
  acc' ++ nestedFlattened.

Fixpoint innerFlattened (item : ComplexityItem) : list ComplexityItem :=
  match inner item with
  | Some l => fold_left (flattenReducer innerFlattened) l []
  | None => []
  end.

Definition flattenInner (inner : option (list ComplexityItem)) : list ComplexityItem :=
  fold_left (flattenReducer innerFlattened) (default [] inner) [].

(** *** The tree seen as a list of nodes *)

(** A node followed by all the nodes below it, parents before children,
    siblings in order. *)
Fixpoint nodesOf (item : ComplexityItem) : list ComplexityItem :=
  item :: match inner item with
          | Some l => flat_map nodesOf l
          | None => []
          end.

Definition preorder (forest : list ComplexityItem) : list ComplexityItem :=
  flat_map nodesOf forest.

(** Every node strictly below [item]. *)
Definition descendants (item : ComplexityItem) : list ComplexityItem :=
  preorder (default [] (inner item)).

Definition sumScores (l : list ComplexityItem) : Z :=
  foldr (fun item s => orZero (score item) + s) 0 l.

(** The score the code keeps for a node: its own score minus the scores of
    every node below it. *)
Definition netScore (item : ComplexityItem) : Z :=
  orZero (score item) - sumScores (descendants item).

(** The net score in the specification's words: own score minus the scores
    of the direct children only. *)
Definition directNetScore (item : ComplexityItem) : Z :=
  orZero (score item) - sumScores (default [] (inner item)).

(** The entry a node gives rise to under a given notion of net score: one
    entry when the net is positive and the line is truthy, none otherwise. *)
Definition emitWith (net : ComplexityItem -> Z) (item : ComplexityItem)
    : list ComplexityItem :=
  if (0 <? net item) && truthy (line item)
  then [mkItem (Some (net item)) (line item) (inner item)]
  else [].

(** The flattening in the specification's words (direct children only). *)
Definition flatten_spec (forest : list ComplexityItem) : list ComplexityItem :=
  flat_map (emitWith directNetScore) (preorder forest).

(** *** Score accounting *)

Definition isEmitted (item : ComplexityItem) : bool :=
  (0 <? netScore item) && truthy (line item).

Definition emittedSum (forest : list ComplexityItem) : Z :=
  sumScores (flattenInner (Some forest)).

(** Net scores of the nodes that give no entry. *)
Definition droppedSum (forest : list ComplexityItem) : Z :=
  foldr (fun item s => (if isEmitted item then 0 else netScore item) + s) 0
        (preorder forest).

(** The total of the tree: the scores of the top-level nodes, each of which
    includes what is nested in it. *)
Definition totalScore (forest : list ComplexityItem) : Z := sumScores forest.

(** What the recursive subtraction takes away more than once: for every node
    below the top level, the scores of all the nodes below that node. *)
Definition belowSum (l : list ComplexityItem) : Z :=
  foldr (fun item s => sumScores (descendants item) + s) 0 l.

Definition deepExcess (forest : list ComplexityItem) : Z :=
  foldr (fun item s => belowSum (descendants item) + s) 0 forest.

Definition isLeaf (item : ComplexityItem) : bool :=
  match inner item with
  | Some (_ :: _) => false
  | _ => true
  end.

(** No top-level node has grandchildren. *)
Definition shallow (forest : list ComplexityItem) : bool :=
  forallb (fun item => forallb isLeaf (default [] (inner item))) forest.

Definition leaf (s l : Z) : ComplexityItem := mkItem (Some s) (Some l) None.
Definition node (s l : Z) (ch : list ComplexityItem) : ComplexityItem :=
  mkItem (Some s) (Some l) (Some ch).

(** ** Document symbols (as declared by the [vscode] API) *)

(** [vscode.SymbolKind]. *)
Inductive SymbolKind : Type :=
  | KFile | KModule | KNamespace | KPackage | KClass | KMethod | KProperty
  | KField | KConstructor | KEnum | KInterface | KFunction | KVariable
  | KConstant | KString | KNumber | KBoolean | KArray | KObject | KKey
  | KNull | KEnumMember | KStruct | KEvent | KOperator | KTypeParameter.

Record Position : Type := mkPosition { pline : Z; character : Z }.

Record Range : Type := mkRange { start : Position; end_ : Position }.

#[warnings="-register-all"]
Inductive DocumentSymbol : Type :=
  mkSymbol { name : string;
             kind : SymbolKind;
             range : Range;
             selectionRange : Range;
             children : list DocumentSymbol }.

(** [[Function, Method, Constructor].includes(kind)] (line 220). *)
Definition isFunctionKind (k : SymbolKind) : bool :=
  match k with
  | KFunction | KMethod | KConstructor => true
  | _ => false
  end.

(** *** filterFunctionSymbols (lines 216-228)

    The body of the [for] loop, on the accumulator [functions];
    [rec symbol] stands for [filterFunctionSymbols(symbol.children)]. *)
Definition filterStep (rec : DocumentSymbol -> list DocumentSymbol)
    (functions : list DocumentSymbol) (symbol : DocumentSymbol)
    : list DocumentSymbol :=
  let functions1 :=
    if isFunctionKind (kind symbol) then functions ++ [symbol] else functions in
  if (0 <? length (children symbol))%nat
  then functions1 ++ rec symbol
  else functions1.

Fixpoint childFunctions (symbol : DocumentSymbol) : list DocumentSymbol :=
  fold_left (filterStep childFunctions) (children symbol) [].

Definition filterFunctionSymbols (symbols : list DocumentSymbol)
    : list DocumentSymbol :=
  fold_left (filterStep childFunctions) symbols [].

(** The symbol tree as a list, parents before children. *)
Fixpoint symbolNodes (symbol : DocumentSymbol) : list DocumentSymbol :=
  symbol :: flat_map symbolNodes (children symbol).

Definition symbolPreorder (symbols : list DocumentSymbol) : list DocumentSymbol :=
  flat_map symbolNodes symbols.

(** *** rangeToString (lines 207-209) *)
Definition rangeToString (range : Range) : string :=
  pretty (pline (start range)) +:+ "," +:+ pretty (character (start range))
  +:+ "-" +:+
  pretty (pline (end_ range)) +:+ "," +:+ pretty (character (end_ range)).

(** ** Severity and diagnostics *)

(** [vscode.DiagnosticSeverity]. *)
Inductive DiagnosticSeverity : Type := Error | Warning | Information | Hint.

Record Diagnostic : Type :=
  mkDiagnostic { drange : Range;
                 message : string;
                 severity : DiagnosticSeverity;
                 source : string }.

(** The severity decision of lines 165-172: the error threshold is tested
    first, then the warning threshold; the last branch assigns nothing. *)
Definition classify (score warningThreshold errorThreshold : Z)
    : option DiagnosticSeverity :=
  if errorThreshold <? score then Some Error
  else if warningThreshold <? score then Some Warning
  else if 0 <? score then None
  else None.

(** *** The matching loop of a run (lines 154-185) *)

(** The predicate given to [functionSymbols.find] (line 156). *)
Definition onLineOf (item : ComplexityItem) (s : DocumentSymbol) : bool :=
  pline (start (selectionRange s)) =? orZero (line item) - 1.

Definition findSymbol (functionSymbols : list DocumentSymbol)
    (item : ComplexityItem) : option DocumentSymbol :=
  find (onLineOf item) functionSymbols.

(** The body of [complexityItems.forEach], on the two locals
    [currentScores] and [diagnostics] of the run. *)
Definition processItem (warningThreshold errorThreshold : Z)
    (functionSymbols : list DocumentSymbol)
    (acc : gmap string Z * list Diagnostic) (item : ComplexityItem)
    : gmap string Z * list Diagnostic :=
  match findSymbol functionSymbols item, score item with
  | Some symbol, Some score =>
      let range := selectionRange symbol in
      let currentScores := <[rangeToString range := score]> (acc.1) in
      match classify score warningThreshold errorThreshold with
      | Some severity =>
          (currentScores,
           acc.2 ++ [mkDiagnostic range ("Cognitive Complexity: " +:+ pretty score)
                                  severity "tsCognilint"])
      | None => (currentScores, acc.2)
      end
  | _, _ => acc
  end.

Definition matchItems (warningThreshold errorThreshold : Z)
    (functionSymbols : list DocumentSymbol) (complexityItems : list ComplexityItem)
    : gmap string Z * list Diagnostic :=
  fold_left (processItem warningThreshold errorThreshold functionSymbols)
            complexityItems (∅, []).

(** ** The debounced analysis of a document (lines 5-11, 51-60, 106-200) *)

Record TextDocument : Type :=
  mkDocument { uri : string; languageId : string; fileName : string }.

(** [isSupportedLanguage] (lines 235-245). *)
Definition isSupportedLanguage (document : TextDocument) : bool :=
  match languageId document with
  | "typescript" | "typescriptreact" | "javascript" | "javascriptreact" => true
  | _ => false
  end.

(** A snapshot of the [tsCognilint] configuration section, defaults applied. *)
Record Configuration : Type :=
  mkConfiguration { enabled : bool; warningThreshold : Z; errorThreshold : Z }.

(** What [getFileOutput] resolves to; the run reads [output.inner] only. *)
Record FileOutput : Type := mkFileOutput { outputInner : option (list ComplexityItem) }.

(** The outcome of an awaited call: a value, or a rejection.  A rejection of
    [getFileOutput] covers a file it cannot read or parse. *)
Inductive Outcome (A : Type) : Type :=
  | Resolved (a : A)
  | Rejected (err : string).
Arguments Resolved {A} a.
Arguments Rejected {A} err.

(** A timer armed with [setTimeout] and not yet fired or cleared.  Its
    callback closes over the document and the configuration snapshot of the
    [processActiveFile] call that armed it. *)
Record Timer : Type :=
  mkTimer { handle : nat; dueAt : nat; tdocument : TextDocument; tconfig : Configuration }.

(** A run between the firing of its timer and its last [await]. *)
Record Run : Type :=
  mkRun { rdocument : TextDocument; rwarningThreshold : Z; rerrorThreshold : Z }.

(** The module-level collections of the extension, the timers of the host
    and the runs in flight.  [runsStarted] and [errorLog] are histories: the
    documents whose timer callback began a run, and the [console.error]
    calls. *)
Record State : Type :=
  mkState { diagnosticCollection : gmap string (list Diagnostic);
            complexityScores : gmap string (gmap string Z);
            debounceTimers : gmap string nat;
            timers : list Timer;
            nextHandle : nat;
            clock : nat;
            running : list Run;
            runsStarted : list string;
            errorLog : list string }.

(** The state [activate] starts from: the collections are empty (the two
    [clear] calls of lines 70-71 find them empty, [processActiveFile] having
    only armed timers by then); the calls [activate] makes for the visible
    editors are [ProcessActiveFile] events below. *)
Definition initialState : State :=
  mkState ∅ ∅ ∅ [] 1%nat 0%nat [] [] [].

(** The debounce delay in milliseconds (line 199). *)
Definition debounceDelay : nat := 300%nat.

(** [diagnosticCollection.delete(uri); complexityScores.delete(uri)]. *)
Definition clearDocument (u : string) (st : State) : State :=
  mkState (delete u (diagnosticCollection st)) (delete u (complexityScores st))
          (debounceTimers st) (timers st) (nextHandle st) (clock st)
          (running st) (runsStarted st) (errorLog st).

(** [clearTimeout(h)]: the host forgets the timer. *)
Definition clearTimeout (h : nat) (st : State) : State :=
  mkState (diagnosticCollection st) (complexityScores st) (debounceTimers st)
          (filter (λ t, handle t ≠ h) (timers st)) (nextHandle st) (clock st)
          (running st) (runsStarted st) (errorLog st).

(** [debounceTimers.set(uri, setTimeout(callback, 300))]: the host arms a
    timer under a fresh handle, due one delay from now. *)
Definition armTimer (document : TextDocument) (config : Configuration)
    (st : State) : State :=
  mkState (diagnosticCollection st) (complexityScores st)
          (<[uri document := nextHandle st]> (debounceTimers st))
          (timers st ++ [mkTimer (nextHandle st) (clock st + debounceDelay)%nat
                                 document config])
          (S (nextHandle st)) (clock st)
          (running st) (runsStarted st) (errorLog st).

(** [debounceTimers.delete(uri)]. *)
Definition forgetTimer (u : string) (st : State) : State :=
  mkState (diagnosticCollection st) (complexityScores st)
          (delete u (debounceTimers st)) (timers st) (nextHandle st) (clock st)
          (running st) (runsStarted st) (errorLog st).

(** [processActiveFile] up to the arming of the timer (lines 106-131);
    [config] is what [getConfiguration] returns at the call. *)
Definition processActiveFile (document : option TextDocument)
    (config : Configuration) (st : State) : State :=
  match document with
  | None => st
  | Some document =>
      if negb (isSupportedLanguage document) then clearDocument (uri document) st
      else
        let docUriString := uri document in
        if negb (enabled config) then clearDocument docUriString st
        else
          let st1 :=
            match debounceTimers st !! docUriString with
            | Some h => clearTimeout h st
            | None => st
            end in
          armTimer document config st1
  end.

(** The [onDidCloseTextDocument] handler (lines 51-60).  A timer handle is an
    object, hence truthy whenever the map holds one. *)
Definition closeTextDocument (doc : TextDocument) (st : State) : State :=
  let st1 := clearDocument (uri doc) st in
  match debounceTimers st1 !! uri doc with
  | Some timer => forgetTimer (uri doc) (clearTimeout timer st1)
  | None => st1
  end.

(** The timer callback up to its first [await] (lines 131-143): the map
    entry is deleted, the thresholds are read from the captured
    configuration, and the run is in flight. *)
Definition beginRun (t : Timer) (st : State) : State :=
  let st1 := forgetTimer (uri (tdocument t)) st in
  mkState (diagnosticCollection st1) (complexityScores st1) (debounceTimers st1)
          (timers st1) (nextHandle st1) (clock st1)
          (running st1 ++ [mkRun (tdocument t) (warningThreshold (tconfig t))
                                 (errorThreshold (tconfig t))])
          (runsStarted st1 ++ [uri (tdocument t)]) (errorLog st1).

(** The [try] block (lines 141-185) on the answers of the two awaited
    services: the locals [currentScores] and [diagnostics] when nothing is
    thrown.  A rejected [getFileOutput] skips the symbol request. *)
Definition tryBlock (run : Run) (output : Outcome FileOutput)
    (symbols : Outcome (option (list DocumentSymbol)))
    : Outcome (gmap string Z * list Diagnostic) :=
  match output with
  | Rejected err => Rejected err
  | Resolved output =>
      let complexityItems := flattenInner (outputInner output) in
      match symbols with
      | Rejected err => Rejected err
      | Resolved symbols =>
          let functionSymbols := filterFunctionSymbols (default [] symbols) in
          Resolved (matchItems (rwarningThreshold run) (rerrorThreshold run)
                               functionSymbols complexityItems)
      end
  end.

(** The end of the callback (lines 187-198): both collections are set, or,
    in the [catch], the error is logged and both entries are deleted. *)
Definition finishRun (run : Run) (output : Outcome FileOutput)
    (symbols : Outcome (option (list DocumentSymbol))) (st : State) : State :=
  let docUriString := uri (rdocument run) in
  match tryBlock run output symbols with
  | Resolved (currentScores, diagnostics) =>
      mkState (<[docUriString := diagnostics]> (diagnosticCollection st))
              (<[docUriString := currentScores]> (complexityScores st))
              (debounceTimers st) (timers st) (nextHandle st) (clock st)
              (running st) (runsStarted st) (errorLog st)
  | Rejected err =>
      let st1 :=
        mkState (diagnosticCollection st) (complexityScores st)
                (debounceTimers st) (timers st) (nextHandle st) (clock st)
                (running st) (runsStarted st)
                (errorLog st ++
                   ["tsCognilint: Error processing cognitive complexity: " +:+ err]) in
      clearDocument docUriString st1
  end.

(** *** Events *)

Inductive Label : Type :=
  | ProcessActiveFile (document : option TextDocument) (config : Configuration)
  | CloseTextDocument (doc : TextDocument)
  | Elapse (ms : nat)
  | TimerFires (h : nat)
  | RunCompletes (i : nat) (output : Outcome FileOutput)
                 (symbols : Outcome (option (list DocumentSymbol))).

Definition elapse (ms : nat) (st : State) : State :=
  mkState (diagnosticCollection st) (complexityScores st) (debounceTimers st)
          (timers st) (nextHandle st) (clock st + ms)%nat
          (running st) (runsStarted st) (errorLog st).

(** The host fires timer [h]: possible only when [h] is armed and due.  A
    fired timer is no longer armed, hence the [clearTimeout] of the model. *)
Definition timerFires (h : nat) (st : State) : option State :=
  match find (λ t, bool_decide (handle t = h)) (timers st) with
  | Some t =>
      if (dueAt t <=? clock st)%nat
      then Some (beginRun t (clearTimeout h st))
      else None
  | None => None
  end.

(** The [i]-th run in flight receives the answers of the services. *)
Definition runCompletes (i : nat) (output : Outcome FileOutput)
    (symbols : Outcome (option (list DocumentSymbol))) (st : State)
    : option State :=
  match running st !! i with
  | Some run =>
      Some (finishRun run output symbols
              (mkState (diagnosticCollection st) (complexityScores st)
                       (debounceTimers st) (timers st) (nextHandle st) (clock st)
                       (delete i (running st)) (runsStarted st) (errorLog st)))
  | None => None
  end.

Definition step (l : Label) (st : State) : option State :=
  match l with
  | ProcessActiveFile document config => Some (processActiveFile document config st)
  | CloseTextDocument doc => Some (closeTextDocument doc st)
  | Elapse ms => Some (elapse ms st)
  | TimerFires h => timerFires h st
  | RunCompletes i output symbols => runCompletes i output symbols st
  end.

Fixpoint exec (tr : list Label) (st : State) : option State :=
  match tr with
  | [] => Some st
  | l :: tr' =>
      match step l st with
      | Some st' => exec tr' st'
      | None => None
      end
  end.

Definition reachable (st : State) : Prop := ∃ tr, exec tr initialState = Some st.

(** *** Observations on a state *)

Definition timersOf (u : string) (st : State) : list Timer :=
  filter (λ t, uri (tdocument t) = u) (timers st).

Definition runsInFlight (u : string) (st : State) : list Run :=
  filter (λ r, uri (rdocument r) = u) (running st).

Definition runsBegun (u : string) (st : State) : nat :=
  length (filter (λ v, v = u) (runsStarted st)).

(** *** Bursts of events *)

(** A call of [processActiveFile] that reaches the debounce: a supported
    document [u], the extension enabled. *)
Definition qualifies (u : string) (l : Label) : bool :=
  match l with
  | ProcessActiveFile (Some d) config =>
      bool_decide (uri d = u) && isSupportedLanguage d && enabled config
  | _ => false
  end.

(** Along [tr], less than one delay passes between a qualifying event on [u]
    and the next (or the end of [tr]), and [u] is not closed; [since] is the
    time passed since the latest qualifying event.  Anything else may
    happen in between. *)
Fixpoint withinWindow (u : string) (since : nat) (tr : list Label) : bool :=
  match tr with
  | [] => true
  | l :: tr' =>
      if qualifies u l then withinWindow u 0 tr'
      else
        match l with
        | Elapse ms =>
            (since + ms <? debounceDelay)%nat && withinWindow u (since + ms) tr'
        | CloseTextDocument d =>
            negb (bool_decide (uri d = u)) && withinWindow u since tr'
        | _ => withinWindow u since tr'
        end
  end.

Definition isBurst (u : string) (tr : list Label) : bool :=
  match tr with
  | l :: tr' => qualifies u l && withinWindow u 0 tr'
  | [] => false
  end.

(** The document and configuration of the latest qualifying event. *)
Definition noteQualifying (u : string)
    (acc : option (TextDocument * Configuration)) (l : Label)
    : option (TextDocument * Configuration) :=
  match l with
  | ProcessActiveFile (Some d) config =>
      if qualifies u l then Some (d, config) else acc
  | _ => acc
  end.

Definition lastQualifying (u : string) (tr : list Label)
    : option (TextDocument * Configuration) :=
  foldl (noteQualifying u) None tr.

(** [symbol.kind] is one of the three kinds kept. *)
Definition keepFunction (s : DocumentSymbol) : bool := isFunctionKind (kind s).

(** *** The debounce map and the armed timers *)

(** [debounceTimers] holds exactly the armed timers, one handle each. *)
Record wellTimed (st : State) : Prop :=
  mkWellTimed {
    timer_registered :
      ∀ t, t ∈ timers st ->
           debounceTimers st !! uri (tdocument t) = Some (handle t);
    registered_armed :
      ∀ u h, debounceTimers st !! u = Some h ->
             ∃ t, t ∈ timers st ∧ handle t = h ∧ uri (tdocument t) = u;
    handles_distinct : NoDup (handle <$> timers st);
    handles_below : ∀ t, t ∈ timers st -> (handle t < nextHandle st)%nat }.

(** The single timer of [u], due one delay after the latest qualifying
    event, which lies [since] milliseconds back. *)
Definition pendingFor (u : string) (since : nat) (t : Timer) (st : State) : Prop :=
  timersOf u st = [t]
  ∧ (dueAt t + since = clock st + debounceDelay)%nat
  ∧ (since < debounceDelay)%nat.

(** ** Sample inputs *)

(** A function of score 15 holding a scope of score 10 holding a scope of
    score 5. *)
Definition exNested : list ComplexityItem :=
  [node 15 1 [node 10 2 [leaf 5 3]]].

(** The same nesting under a function of score 20. *)
Definition exChain : list ComplexityItem :=
  [node 20 1 [node 10 2 [leaf 5 3]]].

(** A root of score 15 with one child of score 5 and no grandchildren. *)
Definition exTwoLevel : list ComplexityItem := [node 15 1 [leaf 5 2]].

Definition at_ (l c : Z) : Range := mkRange (mkPosition l c) (mkPosition l (c + 1)).

Definition exMethod : DocumentSymbol := mkSymbol "m" KMethod (at_ 1 2) (at_ 1 2) [].
Definition exTwin : DocumentSymbol := mkSymbol "n" KMethod (at_ 1 9) (at_ 1 9) [].
Definition exFunction : DocumentSymbol := mkSymbol "f" KFunction (at_ 5 9) (at_ 5 9) [].

(** A class on line 0 with two methods on line 1, and a function on line 5. *)
Definition exSymbols : list DocumentSymbol :=
  [mkSymbol "C" KClass (at_ 0 6) (at_ 0 6) [exMethod; exTwin]; exFunction].

(** Entries on the 1-based lines 2 and 6, of scores 5 and 15. *)
Definition exItems : list ComplexityItem := [leaf 5 2; leaf 15 6].

Definition exDoc : TextDocument := mkDocument "file:///a.ts" "typescript" "/a.ts".
Definition exOther : TextDocument := mkDocument "file:///b.ts" "typescript" "/b.ts".
Definition exOn : Configuration := mkConfiguration true 10 20.
Definition exOff : Configuration := mkConfiguration false 10 20.
Definition exOutput : FileOutput := mkFileOutput (Some exItems).

(** A published run of [exDoc] followed by a second run still in flight. *)
Definition exStale : list Label :=
  [ProcessActiveFile (Some exDoc) exOn; Elapse 300; TimerFires 1;
   RunCompletes 0 (Resolved exOutput) (Resolved (Some exSymbols));
   ProcessActiveFile (Some exDoc) exOn; Elapse 300; TimerFires 2].

(** Three events on [exDoc] less than 300 ms apart, an event on another
    document in between. *)
Definition exBurst : list Label :=
  [ProcessActiveFile (Some exDoc) exOn; Elapse 100;
   ProcessActiveFile (Some exOther) exOn; Elapse 150;
   ProcessActiveFile (Some exDoc) exOn; Elapse 299;
   ProcessActiveFile (Some exDoc) (mkConfiguration true 3 4); Elapse 200].

(** Two events on [exDoc] more than 300 ms apart, each followed by the
    firing of its timer; no run completes. *)
Definition exOverlap : list Label :=
  [ProcessActiveFile (Some exDoc) exOn; Elapse 300; TimerFires 1;
   ProcessActiveFile (Some exDoc) exOn; Elapse 300; TimerFires 2].

Definition exStaleState : State :=
  default initialState (exec exStale initialState).

Definition exBurstState : State :=
  default initialState (exec exBurst exStaleState).

(** ** Induction over nested items and nested symbols *)

Section ComplexityItem_nested_ind.
Variable P : ComplexityItem -> Prop.
Hypothesis Hitem :
  ∀ s l i, Forall P (default [] i) -> P (mkItem s l i).

Fixpoint ComplexityItem_nested_ind (item : ComplexityItem) : P item :=
  match item with
  | mkItem s l i =>
      Hitem s l i
        (match i return Forall P (default [] i) with
         | Some ch =>
             (fix all (l1 : list ComplexityItem) : Forall P l1 :=
                match l1 with
                | [] => List.Forall_nil P
                | x :: l2 =>
                    List.Forall_cons P x l2 (ComplexityItem_nested_ind x) (all l2)
                end) ch
         | None => List.Forall_nil P
         end)
  end.
End ComplexityItem_nested_ind.

Section DocumentSymbol_nested_ind.
Variable P : DocumentSymbol -> Prop.
Hypothesis Hsymbol :
  ∀ n k r sr ch, Forall P ch -> P (mkSymbol n k r sr ch).

Fixpoint DocumentSymbol_nested_ind (symbol : DocumentSymbol) : P symbol :=
  match symbol with
  | mkSymbol n k r sr ch =>
      Hsymbol n k r sr ch
        ((fix all (l : list DocumentSymbol) : Forall P l :=
            match l with
            | [] => List.Forall_nil P
            | x :: l' =>
                List.Forall_cons P x l' (DocumentSymbol_nested_ind x) (all l')
            end) ch)
  end.
End DocumentSymbol_nested_ind.

(** ** Definitions for the further properties *)

(** Character [c] occurs in [s]. *)
Fixpoint occurs (c : ascii) (s : string) : bool :=
  match s with
  | EmptyString => false
  | String a s' => bool_decide (a = c) || occurs c s'
  end.

(** The severities ordered: none, Warning, Error ([Information] and [Hint],
    which the extension never assigns, rank with none). *)
Definition severityRank (s : option DiagnosticSeverity) : nat :=
  match s with
  | Some Error => 2
  | Some Warning => 1
  | _ => 0
  end.

(** What the matching loop does with one entry, read off the branches of
    the [forEach] body: the key and score it caches, if any. *)
Definition cachedBy (functionSymbols : list DocumentSymbol)
    (item : ComplexityItem) : option (string * Z) :=
  match findSymbol functionSymbols item, score item with
  | Some symbol, Some sc => Some (rangeToString (selectionRange symbol), sc)
  | _, _ => None
  end.

(** The scores the entries cache under [key], in entry order. *)
Definition scoresAt (functionSymbols : list DocumentSymbol) (key : string)
    (items : list ComplexityItem) : list Z :=
  omap (λ item, match cachedBy functionSymbols item with
                | Some (k, sc) => if decide (k = key) then Some sc else None
                | None => None
                end) items.

(** *** The other handlers (lines 24-72 and 248-256) *)

(** The body of [visibleTextEditors.forEach] (lines 36-40 and 63-67): the
    document of the editor is processed when the editor has one. *)
Definition processEditor (config : Configuration) (st : State)
    (editor : option TextDocument) : State :=
  match editor with
  | Some document => processActiveFile (Some document) config st
  | None => st
  end.

(** The [onDidChangeConfiguration] handler (lines 32-42); [config] is the
    configuration after the change. *)
Definition configurationChanged (affectsConfiguration : bool)
    (visibleTextEditors : list (option TextDocument)) (config : Configuration)
    (st : State) : State :=
  if affectsConfiguration
  then foldl (processEditor config) st visibleTextEditors
  else st.

(** [activate] (lines 24-72) once the handlers are registered: a new
    diagnostic collection, the visible editors processed, both collections
    cleared. *)
Definition activate (visibleTextEditors : list (option TextDocument))
    (config : Configuration) (st : State) : State :=
  let st0 :=
    mkState ∅ (complexityScores st) (debounceTimers st) (timers st)
            (nextHandle st) (clock st) (running st) (runsStarted st)
            (errorLog st) in
  let st1 := foldl (processEditor config) st0 visibleTextEditors in
  mkState ∅ ∅ (debounceTimers st1) (timers st1) (nextHandle st1) (clock st1)
          (running st1) (runsStarted st1) (errorLog st1).

(** [deactivate] (lines 248-256): the collections are cleared, every timer
    of the timer map is cancelled and the map is cleared. *)
Definition deactivate (st : State) : State :=
  let st1 :=
    foldr (λ entry st, clearTimeout entry.2 st) st
          (map_to_list (debounceTimers st)) in
  mkState ∅ ∅ ∅ (timers st1) (nextHandle st1) (clock st1) (running st1)
          (runsStarted st1) (errorLog st1).

(** The events that deliver the visible editors to [processActiveFile]. *)
Definition editorEvents (visibleTextEditors : list (option TextDocument))
    (config : Configuration) : list Label :=
  omap (λ editor, (λ document, ProcessActiveFile (Some document) config)
                    <$> editor) visibleTextEditors.

(** The document an event acts on, if any. *)
Definition subject (l : Label) (st : State) : option string :=
  match l with
  | ProcessActiveFile document _ => uri <$> document
  | CloseTextDocument doc => Some (uri doc)
  | Elapse _ => None
  | TimerFires h =>
      (λ t, uri (tdocument t))
        <$> find (λ t, bool_decide (handle t = h)) (timers st)
  | RunCompletes i _ _ => (λ r, uri (rdocument r)) <$> running st !! i
  end.

(** What is published and cached is consistent, and nothing is pending or
    running for a document in an unsupported language. *)
Record storeConsistent (st : State) : Prop :=
  mkStoreConsistent {
    same_documents :
      ∀ u, is_Some (diagnosticCollection st !! u)
           <-> is_Some (complexityScores st !! u);
    published_cached :
      ∀ u ds d, diagnosticCollection st !! u = Some ds -> d ∈ ds ->
        source d = "tsCognilint"
        ∧ (severity d = Error ∨ severity d = Warning)
        ∧ ∃ cs, complexityScores st !! u = Some cs
                ∧ rangeToString (drange d) ∈ dom cs;
    published_ran :
      ∀ u, is_Some (diagnosticCollection st !! u) -> u ∈ runsStarted st;
    running_began :
      ∀ r, r ∈ running st ->
           uri (rdocument r) ∈ runsStarted st
           ∧ isSupportedLanguage (rdocument r) = true;
    timers_qualified :
      ∀ t, t ∈ timers st ->
           isSupportedLanguage (tdocument t) = true
           ∧ enabled (tconfig t) = true }.

(** The documents shown in the visible editors, by identity. *)
Definition visibleUris (visibleTextEditors : list (option TextDocument))
    : list string :=
  omap (λ editor, uri <$> editor) visibleTextEditors.

(** A document about which the extension holds nothing: no published
    diagnostics, no cached scores, no armed timer. *)
Definition forgotten (u : string) (st : State) : Prop :=
  diagnosticCollection st !! u = None
  ∧ complexityScores st !! u = None
  ∧ timersOf u st = [].

(** A published run of [exDoc] followed by a new event on it: diagnostics
    published, a timer pending, no run in flight. *)
Definition exPublished : list Label :=
  [ProcessActiveFile (Some exDoc) exOn; Elapse 300; TimerFires 1;
   RunCompletes 0 (Resolved exOutput) (Resolved (Some exSymbols));
   ProcessActiveFile (Some exDoc) exOn].

Definition exPublishedState : State :=
  default initialState (exec exPublished initialState).

(** What may follow the closing of [exDoc] in [exPublishedState]: a whole
    analysis of another document and a call for [exDoc] with the extension
    disabled. *)
Definition exLater : list Label :=
  [ProcessActiveFile (Some exOther) exOn; Elapse 300; TimerFires 3;
   RunCompletes 0 (Resolved exOutput) (Resolved (Some exSymbols));
   ProcessActiveFile (Some exDoc) exOff].

(** * Proofs *)

(** ** Score aggregation *)

Lemma nodesOf_eq item : nodesOf item = item :: descendants item.
Proof. by destruct item as [s l [ch|]]. Qed.

Lemma preorder_cons item forest :
  preorder (item :: forest) = item :: descendants item ++ preorder forest.
Proof. unfold preorder at 1. simpl. by rewrite nodesOf_eq. Qed.

Lemma sumScores_cons item l :
  sumScores (item :: l) = orZero (score item) + sumScores l.
Proof. done. Qed.

Lemma sumScores_app l1 l2 : sumScores (l1 ++ l2) = sumScores l1 + sumScores l2.
Proof. unfold sumScores. induction l1 as [|x l1 IH]; simpl; lia. Qed.

Lemma fold_scoreReducer rec l acc :
  fold_left (scoreReducer rec) l acc
  = acc + foldr (fun item s => orZero (score item) + rec item + s) 0 l.
Proof.
  revert acc. induction l as [|x l IH]; intros acc; simpl; [lia|].
  rewrite IH. unfold scoreReducer. lia.
Qed.

Lemma fold_flattenReducer rec l acc :
  fold_left (flattenReducer rec) l acc
  = acc ++ flat_map (fun item =>
             emitWith (fun it => orZero (score it) - getScoreSum (default [] (inner it))) item
             ++ rec item) l.
Proof.
  revert acc. induction l as [|x l IH]; intros acc; simpl.
  - by rewrite app_nil_r.
  - rewrite IH. unfold flattenReducer, emitWith.
    destruct ((0 <? _) && _); simpl; by rewrite <- ?app_assoc.
Qed.

(** [getScoreSum] adds up the scores of every node of the forest, at every
    depth. *)
Lemma innerScoreSum_descendants item :
  innerScoreSum item = sumScores (descendants item).
Proof.
  induction item as [s l i IH] using ComplexityItem_nested_ind.
  destruct i as [ch|]; [|done].
  change (innerScoreSum (mkItem s l (Some ch)))
    with (fold_left (scoreReducer innerScoreSum) ch 0).
  change (descendants (mkItem s l (Some ch))) with (preorder ch).
  rewrite fold_scoreReducer. simpl in IH.
  induction IH as [|x ch Hx _ IHch]; [done|].
  rewrite preorder_cons, sumScores_cons, sumScores_app, <- Hx, <- IHch.
  simpl. lia.
Qed.

Lemma getScoreSum_preorder forest : getScoreSum forest = sumScores (preorder forest).
Proof.
  unfold getScoreSum. rewrite fold_scoreReducer.
  induction forest as [|x f IH]; [done|].
  rewrite preorder_cons, sumScores_cons, sumScores_app, <- IH.
  rewrite <- innerScoreSum_descendants. simpl. lia.
Qed.

Lemma adjustedScore_netScore item :
  orZero (score item) - getScoreSum (default [] (inner item)) = netScore item.
Proof. unfold netScore, descendants. by rewrite getScoreSum_preorder. Qed.

Lemma emitWith_ext net1 net2 item :
  net1 item = net2 item -> emitWith net1 item = emitWith net2 item.
Proof. unfold emitWith. by intros ->. Qed.

Lemma innerFlattened_descendants item :
  innerFlattened item = flat_map (emitWith netScore) (descendants item).
Proof.
  induction item as [s l i IH] using ComplexityItem_nested_ind.
  destruct i as [ch|]; [|done].
  change (innerFlattened (mkItem s l (Some ch)))
    with (fold_left (flattenReducer innerFlattened) ch []).
  change (descendants (mkItem s l (Some ch))) with (preorder ch).
  rewrite fold_flattenReducer. simpl in IH. simpl.
  induction IH as [|x ch Hx _ IHch]; [done|].
  rewrite preorder_cons. simpl. rewrite flat_map_app, <- Hx, <- IHch.
  rewrite (emitWith_ext _ netScore x) by apply adjustedScore_netScore.
  by rewrite <- app_assoc.
Qed.

Lemma flattenInner_preorder forest :
  flattenInner (Some forest) = flat_map (emitWith netScore) (preorder forest).
Proof.
  unfold flattenInner. rewrite fold_flattenReducer. simpl.
  induction forest as [|x f IH]; [done|].
  rewrite preorder_cons. simpl. rewrite flat_map_app, <- IH.
  rewrite <- innerFlattened_descendants.
  rewrite (emitWith_ext _ netScore x) by apply adjustedScore_netScore.
  by rewrite <- app_assoc.
Qed.

(** Every entry of the flattening has a line other than 0 and a positive
    score. *)
Lemma flattenInner_entry inner entry :
  entry ∈ flattenInner inner ->
  ∃ l sc, line entry = Some l ∧ l ≠ 0 ∧ score entry = Some sc ∧ 0 < sc.
Proof.
  destruct inner as [forest|]; [|by intros ?%elem_of_nil].
  rewrite flattenInner_preorder, list_elem_of_In, in_flat_map.
  intros (n & _ & Hin). unfold emitWith in Hin.
  destruct (0 <? netScore n) eqn:Hnet; [|done].
  destruct (line n) as [l|] eqn:Hl; [|done]. simpl in Hin.
  destruct (l =? 0) eqn:El; [done|].
  destruct Hin as [<-|[]]. exists l, (netScore n). simpl.
  apply Z.eqb_neq in El. apply Z.ltb_lt in Hnet. done.
Qed.

Lemma netSum_emitted_dropped l :
  sumScores (flat_map (emitWith netScore) l)
  + foldr (fun item s => (if isEmitted item then 0 else netScore item) + s) 0 l
  = foldr (fun item s => netScore item + s) 0 l.
Proof.
  induction l as [|x l IH]; [done|].
  simpl. rewrite sumScores_app. unfold emitWith at 1, isEmitted at 1.
  destruct ((0 <? netScore x) && truthy (line x)); simpl; lia.
Qed.

Lemma netSum_belowSum l :
  foldr (fun item s => netScore item + s) 0 l = sumScores l - belowSum l.
Proof.
  induction l as [|x l IH]; [done|].
  simpl. rewrite IH. unfold netScore. lia.
Qed.

Lemma belowSum_app l1 l2 : belowSum (l1 ++ l2) = belowSum l1 + belowSum l2.
Proof. unfold belowSum. induction l1 as [|x l1 IH]; simpl; lia. Qed.

Lemma preorder_accounts forest :
  sumScores (preorder forest) - belowSum (preorder forest)
  = totalScore forest - deepExcess forest.
Proof.
  unfold totalScore. induction forest as [|x f IH]; [done|].
  rewrite preorder_cons, sumScores_cons.
  change (belowSum (x :: ?l)) with (sumScores (descendants x) + belowSum l).
  rewrite sumScores_app, belowSum_app. simpl. lia.
Qed.

Lemma sum_conservation forest :
  emittedSum forest + droppedSum forest = totalScore forest - deepExcess forest.
Proof.
  unfold emittedSum, droppedSum. rewrite flattenInner_preorder.
  rewrite netSum_emitted_dropped, netSum_belowSum. apply preorder_accounts.
Qed.

Lemma isLeaf_descendants item : isLeaf item = true -> descendants item = [].
Proof. destruct item as [s l [[|c ch]|]]; done. Qed.

Lemma leaves_preorder l : forallb isLeaf l = true -> preorder l = l.
Proof.
  induction l as [|x l IH]; [done|]. intros [Hx Hl]%andb_prop.
  rewrite preorder_cons, (isLeaf_descendants x Hx), IH; done.
Qed.

Lemma leaves_belowSum l : forallb isLeaf l = true -> belowSum l = 0.
Proof.
  induction l as [|x l IH]; [done|]. intros [Hx Hl]%andb_prop.
  change (belowSum (x :: l)) with (sumScores (descendants x) + belowSum l).
  rewrite (isLeaf_descendants x Hx), IH; done.
Qed.

Lemma shallow_deepExcess forest : shallow forest = true -> deepExcess forest = 0.
Proof.
  induction forest as [|x f IH]; [done|]. intros [Hx Hf]%andb_prop.
  change (deepExcess (x :: f)) with (belowSum (descendants x) + deepExcess f).
  rewrite IH by done. unfold descendants.
  rewrite (leaves_preorder _ Hx), (leaves_belowSum _ Hx). done.
Qed.

(** ** Symbols: nested induction, filtering, first match *)





Lemma fold_filterStep rec l acc :
  (∀ s, children s = [] -> rec s = []) ->
  fold_left (filterStep rec) l acc
  = acc ++ flat_map (fun s => List.filter keepFunction [s] ++ rec s) l.
Proof.
  intros Hrec. revert acc. induction l as [|x l IH]; intros acc.
  - simpl. by rewrite app_nil_r.
  - cbn [fold_left flat_map]. rewrite IH. unfold filterStep, keepFunction.
    cbn [List.filter]. destruct (children x) as [|c ch] eqn:E.
    + rewrite (Hrec x E). destruct (isFunctionKind (kind x)); simpl;
        by rewrite <- ?app_assoc, ?app_nil_r.
    + destruct (isFunctionKind (kind x)); simpl; by rewrite <- ?app_assoc.
Qed.

Lemma symbolNodes_eq s : symbolNodes s = [s] ++ symbolPreorder (children s).
Proof. by destruct s. Qed.

Lemma childFunctions_leaf s : children s = [] -> childFunctions s = [].
Proof. destruct s as [n k r sr ch]. simpl. by intros ->. Qed.

Lemma childFunctions_preorder symbol :
  childFunctions symbol
  = List.filter keepFunction (symbolPreorder (children symbol)).
Proof.
  induction symbol as [n k r sr ch IH] using DocumentSymbol_nested_ind.
  change (childFunctions (mkSymbol n k r sr ch))
    with (fold_left (filterStep childFunctions) ch []).
  rewrite fold_filterStep by apply childFunctions_leaf.
  cbn [children app]. unfold symbolPreorder.
  induction IH as [|x ch Hx _ IHch]; [done|].
  cbn [flat_map symbolNodes]. rewrite IHch, Hx.
  by rewrite symbolNodes_eq, !List.filter_app.
Qed.

Lemma filterFunctionSymbols_preorder symbols :
  filterFunctionSymbols symbols
  = List.filter keepFunction (symbolPreorder symbols).
Proof.
  unfold filterFunctionSymbols.
  rewrite fold_filterStep by apply childFunctions_leaf.
  cbn [app]. unfold symbolPreorder.
  induction symbols as [|x l IH]; [done|].
  cbn [flat_map symbolNodes]. rewrite IH, childFunctions_preorder.
  by rewrite symbolNodes_eq, !List.filter_app.
Qed.

Lemma find_first {A} (p : A -> bool) (l : list A) (x : A) :
  find p l = Some x <->
  ∃ before after, l = before ++ x :: after ∧ p x = true
                  ∧ Forall (fun y => p y = false) before.
Proof.
  induction l as [|y l IH]; simpl.
  - split; [done|]. intros ([|? ?] & ? & ? & _); done.
  - destruct (p y) eqn:Ey.
    + split.
      * intros [= ->]. exists [], l. by repeat split.
      * intros (before & after & E & Hx & Hb).
        destruct before as [|b before]; simpl in E.
        -- by injection E as ->.
        -- injection E as -> _. apply Forall_cons in Hb as [Hb _]. congruence.
    + rewrite IH. split.
      * intros (before & after & -> & Hx & Hb).
        exists (y :: before), after. repeat split; [done|]. by apply Forall_cons.
      * intros (before & after & E & Hx & Hb).
        destruct before as [|b before]; simpl in E.
        -- injection E as -> _. congruence.
        -- injection E as -> ->. apply Forall_cons in Hb as [_ Hb].
           by exists before, after.
Qed.

Lemma find_nothing {A} (p : A -> bool) (l : list A) :
  find p l = None <-> Forall (fun y => p y = false) l.
Proof.
  induction l as [|y l IH]; simpl.
  - split; [by constructor|done].
  - rewrite Forall_cons. destruct (p y).
    + split; [done|]. by intros [? _].
    + rewrite IH. split; [done|]. by intros [_ ?].
Qed.

Lemma onLineOf_true item s :
  onLineOf item s = true <-> pline (start (selectionRange s)) = orZero (line item) - 1.
Proof. unfold onLineOf. apply Z.eqb_eq. Qed.

Lemma onLineOf_false item s :
  onLineOf item s = false <-> pline (start (selectionRange s)) ≠ orZero (line item) - 1.
Proof. unfold onLineOf. apply Z.eqb_neq. Qed.

(** ** The debounce map and the armed timers *)



Lemma handle_inj (l : list Timer) t1 t2 :
  NoDup (handle <$> l) -> t1 ∈ l -> t2 ∈ l -> handle t1 = handle t2 -> t1 = t2.
Proof.
  induction l as [|x l IH]; [by intros _ ?%elem_of_nil|].
  rewrite fmap_cons, NoDup_cons. intros [Hx Hl] H1 H2 E.
  apply elem_of_cons in H1 as [->|H1]; apply elem_of_cons in H2 as [->|H2].
  - done.
  - destruct Hx. rewrite E. by apply list_elem_of_fmap_2.
  - destruct Hx. rewrite <- E. by apply list_elem_of_fmap_2.
  - by apply IH.
Qed.

Lemma NoDup_handles_filter (P : Timer -> Prop) `{∀ t, Decision (P t)} l :
  NoDup (handle <$> l) -> NoDup (handle <$> filter P l).
Proof.
  intros Hl. eapply sublist_NoDup; [done|].
  apply fmap_sublist, sublist_filter.
Qed.

Lemma wellTimed_initial : wellTimed initialState.
Proof.
  split; simpl.
  - by intros t ?%elem_of_nil.
  - intros u h Hu. by rewrite lookup_empty in Hu.
  - constructor.
  - by intros t ?%elem_of_nil.
Qed.

(** A timer of another document does not carry the handle registered for
    [u]. *)
Lemma other_handle st u h t :
  wellTimed st -> debounceTimers st !! u = Some h ->
  t ∈ timers st -> uri (tdocument t) ≠ u -> handle t ≠ h.
Proof.
  intros W Hu Ht Hne E.
  destruct (registered_armed st W u h Hu) as (t' & Ht' & Hh & Hu').
  assert (t = t') by (eapply handle_inj; eauto using handles_distinct; congruence).
  congruence.
Qed.

(** The timers of [u] are the one registered for [u], if any. *)
Lemma own_handle st u h t :
  wellTimed st -> debounceTimers st !! u = Some h ->
  t ∈ timers st -> uri (tdocument t) = u -> handle t = h.
Proof.
  intros W Hu Ht E. apply (timer_registered st W) in Ht. congruence.
Qed.

Lemma unregistered_no_timer st u t :
  wellTimed st -> debounceTimers st !! u = None ->
  t ∈ timers st -> uri (tdocument t) ≠ u.
Proof.
  intros W Hu Ht E. apply (timer_registered st W) in Ht. congruence.
Qed.

Lemma wellTimed_clearDocument u st : wellTimed st -> wellTimed (clearDocument u st).
Proof. intros [A D C B]. by split. Qed.

Lemma wellTimed_elapse ms st : wellTimed st -> wellTimed (elapse ms st).
Proof. intros [A D C B]. by split. Qed.

(** Cancelling the timer registered for [u] and forgetting it. *)
Lemma wellTimed_cancel u h st :
  wellTimed st -> debounceTimers st !! u = Some h ->
  wellTimed (forgetTimer u (clearTimeout h st)).
Proof.
  intros W Hu. split; simpl.
  - intros t [Hh Ht]%list_elem_of_filter.
    rewrite lookup_delete_ne; [by apply (timer_registered st W)|].
    intros E. apply Hh. symmetry in E. by eapply own_handle.
  - intros u' h' [Hne Hu']%lookup_delete_Some.
    destruct (registered_armed st W u' h' Hu') as (t & Ht & Hh & E).
    exists t. repeat split; [|done..]. apply list_elem_of_filter. split; [|done].
    eapply other_handle; eauto. congruence.
  - apply NoDup_handles_filter, (handles_distinct st W).
  - intros t [_ Ht]%list_elem_of_filter. by apply (handles_below st W).
Qed.

Lemma wellTimed_armTimer document config st :
  wellTimed st ->
  (∀ t, t ∈ timers st -> uri (tdocument t) ≠ uri document) ->
  wellTimed (armTimer document config st).
Proof.
  intros W Hfree. split; simpl.
  - intros t [Ht| ->%list_elem_of_singleton]%elem_of_app; simpl.
    + rewrite lookup_insert_ne by (apply not_eq_sym; by apply Hfree).
      by apply (timer_registered st W).
    + by rewrite lookup_insert_eq.
  - intros u' h'. destruct (decide (uri document = u')) as [<-|Hne].
    + rewrite lookup_insert_eq. intros [= <-].
      eexists. split; [apply elem_of_app; right; by apply list_elem_of_singleton|done].
    + rewrite lookup_insert_ne by done. intros Hu'.
      destruct (registered_armed st W u' h' Hu') as (t & Ht & Hh & E).
      exists t. split; [apply elem_of_app; by left|done].
  - rewrite fmap_app. apply NoDup_app. split; [apply (handles_distinct st W)|].
    split; [|apply NoDup_singleton].
    intros h (t & E & Ht)%list_elem_of_fmap Hs%list_elem_of_singleton.
    apply (handles_below st W) in Ht. simpl in Hs. lia.
  - intros t [Ht| ->%list_elem_of_singleton]%elem_of_app; simpl; [|lia].
    apply (handles_below st W) in Ht. lia.
Qed.

Lemma wellTimed_processActiveFile document config st :
  wellTimed st -> wellTimed (processActiveFile document config st).
Proof.
  intros W. unfold processActiveFile.
  destruct document as [d|]; [|done].
  destruct (isSupportedLanguage d); simpl; [|by apply wellTimed_clearDocument].
  destruct (enabled config); simpl; [|by apply wellTimed_clearDocument].
  destruct (debounceTimers st !! uri d) as [h|] eqn:Hu.
  - split; simpl.
    + intros t [[Hh Ht]%list_elem_of_filter| ->%list_elem_of_singleton]%elem_of_app;
        simpl; [|by rewrite lookup_insert_eq].
      rewrite lookup_insert_ne; [by apply (timer_registered st W)|].
      intros E. apply Hh. symmetry in E. by eapply own_handle.
    + intros u' h'. destruct (decide (uri d = u')) as [<-|Hne].
      * rewrite lookup_insert_eq. intros [= <-]. eexists.
        split; [apply elem_of_app; right; by apply list_elem_of_singleton|done].
      * rewrite lookup_insert_ne by done. intros Hu'.
        destruct (registered_armed st W u' h' Hu') as (t & Ht & Hh & E).
        exists t. split; [|done]. apply elem_of_app. left.
        apply list_elem_of_filter. split; [|done].
        eapply other_handle; eauto. congruence.
    + rewrite fmap_app. apply NoDup_app.
      split; [apply NoDup_handles_filter, (handles_distinct st W)|].
      split; [|apply NoDup_singleton].
      intros h0 (t & E & [_ Ht]%list_elem_of_filter)%list_elem_of_fmap
             Hs%list_elem_of_singleton.
      apply (handles_below st W) in Ht. simpl in Hs. lia.
    + intros t [[_ Ht]%list_elem_of_filter| ->%list_elem_of_singleton]%elem_of_app;
        simpl; [|lia].
      apply (handles_below st W) in Ht. lia.
  - apply wellTimed_armTimer; [done|].
    intros t Ht. by eapply unregistered_no_timer.
Qed.

Lemma wellTimed_closeTextDocument doc st :
  wellTimed st -> wellTimed (closeTextDocument doc st).
Proof.
  intros W. unfold closeTextDocument.
  assert (W1 := wellTimed_clearDocument (uri doc) st W).
  destruct (debounceTimers (clearDocument (uri doc) st) !! uri doc) as [h|] eqn:Hu;
    [|done].
  by apply wellTimed_cancel.
Qed.

Lemma find_handle (l : list Timer) h t :
  find (λ t, bool_decide (handle t = h)) l = Some t -> t ∈ l ∧ handle t = h.
Proof.
  intros [Hin Hh]%find_some. split; [by apply list_elem_of_In|].
  by apply bool_decide_eq_true in Hh.
Qed.

Lemma wellTimed_timerFires h st st' :
  wellTimed st -> timerFires h st = Some st' -> wellTimed st'.
Proof.
  intros W. unfold timerFires.
  destruct (find _ (timers st)) as [t|] eqn:Hf; [|done].
  destruct (dueAt t <=? clock st)%nat; [|done]. intros [= <-].
  apply find_handle in Hf as [Ht Hh].
  assert (Hu := timer_registered st W t Ht). rewrite Hh in Hu.
  destruct (wellTimed_cancel _ _ _ W Hu) as [A D C B]. by split.
Qed.

Lemma wellTimed_finishRun run output symbols st :
  wellTimed st -> wellTimed (finishRun run output symbols st).
Proof.
  intros [A D C B]. unfold finishRun.
  destruct (tryBlock run output symbols) as [[cs ds]|err]; by split.
Qed.

Lemma wellTimed_runCompletes i output symbols st st' :
  wellTimed st -> runCompletes i output symbols st = Some st' -> wellTimed st'.
Proof.
  intros [A D C B]. unfold runCompletes.
  destruct (running st !! i) as [run|]; [|done]. intros [= <-].
  apply wellTimed_finishRun. by split.
Qed.

Create HintDb timers discriminated.

#[local] Hint Resolve wellTimed_processActiveFile wellTimed_closeTextDocument
  wellTimed_elapse wellTimed_timerFires wellTimed_runCompletes : timers.

Lemma wellTimed_step l st st' :
  wellTimed st -> step l st = Some st' -> wellTimed st'.
Proof.
  intros W. destruct l; simpl; [intros [= <-]..| |]; eauto with timers.
Qed.

Lemma wellTimed_exec tr st st' :
  wellTimed st -> exec tr st = Some st' -> wellTimed st'.
Proof.
  revert st. induction tr as [|l tr IH]; intros st W; simpl.
  - by intros [= <-].
  - destruct (step l st) as [st1|] eqn:E; [|done].
    apply IH. by eapply wellTimed_step.
Qed.

Lemma wellTimed_reachable st : reachable st -> wellTimed st.
Proof. intros [tr Htr]. eapply wellTimed_exec; [apply wellTimed_initial|done]. Qed.

(** At most one timer is armed for a document. *)
Lemma timersOf_at_most_one u st :
  wellTimed st -> (length (timersOf u st) <= 1)%nat.
Proof.
  intros W. unfold timersOf.
  assert (Hsame : ∀ t1 t2, t1 ∈ timers st -> t2 ∈ timers st ->
            uri (tdocument t1) = u -> uri (tdocument t2) = u -> t1 = t2).
  { intros t1 t2 H1 H2 E1 E2. eapply handle_inj; eauto using handles_distinct.
    apply (timer_registered st W) in H1, H2. congruence. }
  assert (Hnd : NoDup (handle <$> timers st)) by apply (handles_distinct st W).
  clear W. induction (timers st) as [|x l IH]; [simpl; lia|].
  rewrite fmap_cons, NoDup_cons in Hnd. destruct Hnd as [Hx Hl].
  rewrite filter_cons. destruct (decide (uri (tdocument x) = u)) as [E|E].
  - assert (filter (λ t, uri (tdocument t) = u) l = []) as ->; [|simpl; lia].
    destruct (filter _ l) as [|y k] eqn:Hk; [done|]. exfalso.
    assert (y ∈ filter (λ t, uri (tdocument t) = u) l) as [Ey Hy]%list_elem_of_filter
      by (rewrite Hk; left).
    apply Hx. rewrite (Hsame x y); [by apply list_elem_of_fmap_2|left|by right|done..].
  - apply IH; [|done]. intros t1 t2 H1 H2. apply Hsame; by right.
Qed.

(** ** One pending timer through a burst of events *)

Lemma filter_none {A} (P : A -> Prop) `{∀ x, Decision (P x)} (l : list A) :
  (∀ x, x ∈ l -> ¬ P x) -> filter P l = [].
Proof.
  induction l as [|x l IH]; [done|]. intros Hl.
  rewrite filter_cons_False by (apply Hl; left).
  apply IH. intros y Hy. apply Hl. by right.
Qed.

Lemma filter_swap {A} (P Q : A -> Prop)
    `{∀ x, Decision (P x)} `{∀ x, Decision (Q x)} (l : list A) :
  filter P (filter Q l) = filter Q (filter P l).
Proof.
  induction l as [|x l IH]; [done|].
  rewrite !filter_cons.
  destruct (decide (Q x)), (decide (P x));
    rewrite ?filter_cons_True, ?filter_cons_False by done; by rewrite IH.
Qed.



Lemma pendingFor_elem u since t st : pendingFor u since t st -> t ∈ timers st.
Proof.
  intros (Ht & _). assert (t ∈ timersOf u st) as [_ ?]%list_elem_of_filter; [|done].
  rewrite Ht. left.
Qed.

Lemma pendingFor_uri u since t st : pendingFor u since t st -> uri (tdocument t) = u.
Proof.
  intros (Ht & _). assert (t ∈ timersOf u st) as [? _]%list_elem_of_filter; [|done].
  rewrite Ht. left.
Qed.

(** Cancelling another handle leaves the timers of [u] alone. *)
Lemma timersOf_clearTimeout_other u h t st :
  timersOf u st = [t] -> handle t ≠ h -> timersOf u (clearTimeout h st) = [t].
Proof.
  unfold timersOf. simpl. intros Ht Hh.
  rewrite filter_swap, Ht. by rewrite filter_cons_True.
Qed.

Lemma timersOf_clearTimeout_own u h st :
  wellTimed st -> debounceTimers st !! u = Some h ->
  timersOf u (clearTimeout h st) = [].
Proof.
  intros W Hu. unfold timersOf. simpl. apply filter_none.
  intros t [Hh Ht]%list_elem_of_filter E. apply Hh. by eapply own_handle.
Qed.

Lemma timersOf_unregistered u st :
  wellTimed st -> debounceTimers st !! u = None -> timersOf u st = [].
Proof.
  intros W Hu. apply filter_none. intros t Ht. by eapply unregistered_no_timer.
Qed.

Lemma runsBegun_snoc (u v : string) (l : list string) :
  length (filter (λ w, w = u) (l ++ [v]))
  = (length (filter (λ w, w = u) l) + (if decide (v = u) then 1 else 0))%nat.
Proof.
  rewrite filter_app, length_app, filter_cons, filter_nil.
  by destruct (decide (v = u)).
Qed.

(** A qualifying event on [u] leaves exactly the timer it arms. *)
Lemma qualifying_step u l st st' :
  wellTimed st -> qualifies u l = true -> step l st = Some st' ->
  ∃ t, pendingFor u 0 t st'
       ∧ l = ProcessActiveFile (Some (tdocument t)) (tconfig t)
       ∧ runsBegun u st' = runsBegun u st.
Proof.
  intros W Hq. destruct l as [[d|] cfg| | | |]; try done. simpl in Hq.
  apply andb_prop in Hq as [[Hu%bool_decide_eq_true Hs]%andb_prop He].
  simpl. unfold processActiveFile. rewrite Hs, He. simpl. intros [= <-].
  exists (mkTimer (nextHandle st) (clock st + debounceDelay) d cfg).
  split; [|split; [done|]; by destruct (debounceTimers st !! uri d)].
  unfold pendingFor.
  destruct (debounceTimers st !! uri d) as [h|] eqn:Hd; subst u.
  - split; [|simpl; unfold debounceDelay; lia].
    unfold timersOf. cbn [timers armTimer]. rewrite filter_app.
    fold (timersOf (uri d) (clearTimeout h st)).
    rewrite timersOf_clearTimeout_own by done. by rewrite filter_cons_True.
  - split; [|simpl; unfold debounceDelay; lia].
    unfold timersOf. cbn [timers armTimer]. rewrite filter_app.
    fold (timersOf (uri d) st).
    rewrite timersOf_unregistered by done. by rewrite filter_cons_True.
Qed.

(** Any other event allowed within the window leaves that timer pending and
    starts no run of [u]. *)
Lemma window_step u l st st' since t :
  wellTimed st -> pendingFor u since t st ->
  qualifies u l = false ->
  withinWindow u since [l] = true ->
  step l st = Some st' ->
  pendingFor u (match l with Elapse ms => since + ms | _ => since end) t st'
  ∧ runsBegun u st' = runsBegun u st.
Proof.
  intros W P Hq Hw Hstep.
  assert (Ht := pendingFor_elem _ _ _ _ P).
  assert (Hu := pendingFor_uri _ _ _ _ P).
  destruct P as (Hone & Hdue & Hsince).
  simpl in Hw. rewrite Hq in Hw.
  destruct l as [doc cfg|doc|ms|h|i output symbols]; simpl in Hstep.
  - (* processActiveFile on something else *)
    injection Hstep as <-. unfold processActiveFile.
    destruct doc as [d|]; [|done].
    destruct (isSupportedLanguage d) eqn:Hs; simpl; [|done].
    destruct (enabled cfg) eqn:He; simpl; [|done].
    simpl in Hq. rewrite Hs, He, !andb_true_r in Hq.
    apply bool_decide_eq_false in Hq.
    destruct (debounceTimers st !! uri d) as [h|] eqn:Hd.
    + split; [|done]. split; [|done].
      unfold timersOf. cbn [timers armTimer]. rewrite filter_app.
      fold (timersOf u (clearTimeout h st)).
      rewrite (timersOf_clearTimeout_other u h t) by
        (done || (eapply other_handle; eauto; congruence)).
      rewrite filter_cons_False by done. done.
    + split; [|done]. split; [|done].
      unfold timersOf. cbn [timers armTimer]. rewrite filter_app.
      fold (timersOf u st). rewrite Hone.
      rewrite filter_cons_False by done. done.
  - (* another document is closed *)
    injection Hstep as <-. apply andb_prop in Hw as [Hd%negb_true_iff _].
    apply bool_decide_eq_false in Hd. unfold closeTextDocument.
    destruct (debounceTimers (clearDocument (uri doc) st) !! uri doc)
      as [h|] eqn:Hh; [|done].
    split; [|done]. split; [|done].
    change (timersOf u (clearTimeout h st) = [t]).
    apply timersOf_clearTimeout_other; [done|].
    eapply other_handle; eauto. congruence.
  - (* time passes, less than the delay *)
    injection Hstep as <-. apply andb_prop in Hw as [Hlt%Nat.ltb_lt _].
    split; [|done]. split; [done|]. simpl. split; lia.
  - (* another timer fires *)
    unfold timerFires in Hstep.
    destruct (find _ (timers st)) as [t'|] eqn:Hf; [|done].
    destruct (dueAt t' <=? clock st)%nat eqn:Hd; [|done].
    injection Hstep as <-. apply find_handle in Hf as [Ht' Hh'].
    apply Nat.leb_le in Hd.
    assert (Hne : uri (tdocument t') ≠ u).
    { intros E. assert (t' ∈ timersOf u st) as Hin
        by (apply list_elem_of_filter; done).
      rewrite Hone in Hin. apply list_elem_of_singleton in Hin. subst t'. lia. }
    split.
    + split; [|done].
      change (timersOf u (clearTimeout h st) = [t]).
      apply timersOf_clearTimeout_other; [done|].
      intros E. apply Hne. rewrite <- Hu. f_equal. f_equal.
      eapply handle_inj; eauto using handles_distinct. congruence.
    + unfold runsBegun. cbn [runsStarted beginRun forgetTimer clearTimeout].
      rewrite runsBegun_snoc. destruct (decide (uri (tdocument t') = u)); [done|lia].
  - (* a run completes *)
    unfold runCompletes in Hstep.
    destruct (running st !! i) as [run|]; [|done]. injection Hstep as <-.
    unfold finishRun. destruct (tryBlock run output symbols) as [[cs ds]|err]; done.
Qed.

Lemma window_exec u tr : ∀ st st' since t,
  wellTimed st -> pendingFor u since t st ->
  withinWindow u since tr = true ->
  exec tr st = Some st' ->
  ∃ t' since', pendingFor u since' t' st'
    ∧ runsBegun u st' = runsBegun u st
    ∧ foldl (noteQualifying u) (Some (tdocument t, tconfig t)) tr
      = Some (tdocument t', tconfig t').
Proof.
  induction tr as [|l tr IH]; intros st st' since t W P Hw Hex.
  - injection Hex as <-. by exists t, since.
  - cbn [exec] in Hex. destruct (step l st) as [st1|] eqn:Hstep; [|done].
    assert (W1 := wellTimed_step _ _ _ W Hstep).
    cbn [foldl]. destruct (qualifies u l) eqn:Hq.
    + cbn [withinWindow] in Hw. rewrite Hq in Hw.
      destruct (qualifying_step _ _ _ _ W Hq Hstep) as (t1 & P1 & -> & Hr1).
      destruct (IH _ _ _ _ W1 P1 Hw Hex) as (t' & since' & P' & Hr' & Hl').
      exists t', since'. split; [done|]. split; [congruence|].
      unfold noteQualifying at 2. by rewrite Hq.
    + assert (Hl : withinWindow u since [l] = true).
      { cbn [withinWindow] in *. rewrite Hq in *.
        destruct l; try done; by apply andb_prop in Hw as [-> _]. }
      destruct (window_step _ _ _ _ _ _ W P Hq Hl Hstep) as [P1 Hr1].
      assert (Hw1 : withinWindow u
                (match l with Elapse ms => since + ms | _ => since end)%nat tr = true).
      { cbn [withinWindow] in Hw. rewrite Hq in Hw.
        destruct l; try done; by apply andb_prop in Hw as [_ ->]. }
      destruct (IH _ _ _ _ W1 P1 Hw1 Hex) as (t' & since' & P' & Hr' & Hl').
      exists t', since'. split; [done|]. split; [congruence|].
      assert (noteQualifying u (Some (tdocument t, tconfig t)) l
              = Some (tdocument t, tconfig t)) as ->; [|done].
      unfold noteQualifying. destruct l as [[d|] cfg| | | |]; try done.
      by rewrite Hq.
Qed.

(** After a burst on [u], one timer is pending for [u], armed by the last
    qualifying event, and no run of [u] began during the burst. *)
Lemma burst_one_timer u tr st st' :
  wellTimed st -> isBurst u tr = true -> exec tr st = Some st' ->
  ∃ t, timersOf u st' = [t]
       ∧ lastQualifying u tr = Some (tdocument t, tconfig t)
       ∧ runsBegun u st' = runsBegun u st
       ∧ (clock st' < dueAt t ∧ dueAt t <= clock st' + debounceDelay)%nat.
Proof.
  intros W Hb Hex. destruct tr as [|l tr]; [done|].
  cbn [isBurst] in Hb. apply andb_prop in Hb as [Hq Hw].
  cbn [exec] in Hex. destruct (step l st) as [st1|] eqn:Hstep; [|done].
  destruct (qualifying_step _ _ _ _ W Hq Hstep) as (t1 & P1 & El & Hr1).
  assert (W1 := wellTimed_step _ _ _ W Hstep).
  destruct (window_exec _ _ _ _ _ _ W1 P1 Hw Hex)
    as (t' & since' & P' & Hr' & Hl').
  destruct P' as (Hone & Hdue & Hsince).
  exists t'. split; [done|]. split.
  - unfold lastQualifying. cbn [foldl]. rewrite <- Hl'. f_equal.
    rewrite El at 1. unfold noteQualifying. rewrite <- El. by rewrite Hq.
  - split; [congruence|]. unfold debounceDelay in *.
    lia.
Qed.

(** Once due, the pending timer of [u] fires: one run begins and no timer of
    [u] remains. *)
Lemma pending_fires u t st ms :
  wellTimed st -> timersOf u st = [t] -> (dueAt t <= clock st + ms)%nat ->
  ∃ st3, exec [Elapse ms; TimerFires (handle t)] st = Some st3
         ∧ runsBegun u st3 = S (runsBegun u st)
         ∧ timersOf u st3 = []
         ∧ running st3 = running st ++
             [mkRun (tdocument t) (warningThreshold (tconfig t))
                    (errorThreshold (tconfig t))].
Proof.
  intros W Hone Hdue.
  assert (t ∈ timersOf u st) as [Hu Ht]%list_elem_of_filter by (rewrite Hone; left).
  cbn [exec step]. unfold timerFires. cbn [timers elapse clock].
  destruct (find _ (timers st)) as [t'|] eqn:Hf.
  - apply find_handle in Hf as [Ht' Hh].
    assert (t' = t) as -> by (eapply handle_inj; eauto using handles_distinct).
    apply Nat.leb_le in Hdue. rewrite Hdue. eexists. split; [done|].
    split; [|split; [|done]].
    + unfold runsBegun. cbn [runsStarted beginRun forgetTimer clearTimeout].
      rewrite runsBegun_snoc, decide_True by done. simpl. lia.
    + unfold timersOf. cbn [timers beginRun forgetTimer clearTimeout elapse].
      rewrite filter_swap. fold (timersOf u st). rewrite Hone.
      by rewrite filter_cons_False by (intros ?; done).
  - exfalso. apply find_none with (x := t) in Hf; [|by apply list_elem_of_In].
    by apply bool_decide_eq_false in Hf.
Qed.

Lemma close_clears doc st :
  wellTimed st ->
  diagnosticCollection (closeTextDocument doc st) !! uri doc = None
  ∧ complexityScores (closeTextDocument doc st) !! uri doc = None
  ∧ debounceTimers (closeTextDocument doc st) !! uri doc = None
  ∧ timersOf (uri doc) (closeTextDocument doc st) = [].
Proof.
  intros W. assert (W1 := wellTimed_clearDocument (uri doc) st W).
  unfold closeTextDocument.
  destruct (debounceTimers (clearDocument (uri doc) st) !! uri doc) as [h|] eqn:Hh.
  - cbn [diagnosticCollection complexityScores debounceTimers forgetTimer
         clearTimeout clearDocument].
    rewrite !lookup_delete_eq. repeat split.
    change (timersOf (uri doc) (clearTimeout h (clearDocument (uri doc) st)) = []).
    by apply timersOf_clearTimeout_own.
  - split; [apply lookup_delete_eq|]. split; [apply lookup_delete_eq|].
    split; [done|]. by apply timersOf_unregistered.
Qed.

(** ** The matching loop: what is cached and what is published *)

Lemma processItem_matched w e fs acc item s sc :
  findSymbol fs item = Some s -> score item = Some sc ->
  processItem w e fs acc item
  = (<[rangeToString (selectionRange s) := sc]> (acc.1),
     acc.2 ++ match classify sc w e with
              | Some sev => [mkDiagnostic (selectionRange s)
                               ("Cognitive Complexity: " +:+ pretty sc)
                               sev "tsCognilint"]
              | None => []
              end).
Proof.
  intros Hs Hsc. unfold processItem. rewrite Hs, Hsc.
  destruct (classify sc w e); [done|]. by rewrite app_nil_r.
Qed.

Lemma processItem_cache_grows w e fs acc item k :
  k ∈ dom (acc.1) -> k ∈ dom ((processItem w e fs acc item).1).
Proof.
  intros Hk. unfold processItem.
  destruct (findSymbol fs item) as [s|]; [|done].
  destruct (score item) as [sc|]; [|done].
  destruct (classify sc w e); simpl; rewrite dom_insert_L; set_solver.
Qed.

Lemma fold_processItem_cache_grows w e fs items : ∀ acc k,
  k ∈ dom (acc.1) -> k ∈ dom ((fold_left (processItem w e fs) items acc).1).
Proof.
  induction items as [|x items IH]; intros acc k Hk; [done|].
  simpl. by apply IH, processItem_cache_grows.
Qed.

Lemma fold_processItem_published w e fs items : ∀ acc,
  (∀ d, d ∈ acc.2 -> rangeToString (drange d) ∈ dom (acc.1)) ->
  ∀ d, d ∈ (fold_left (processItem w e fs) items acc).2 ->
       rangeToString (drange d) ∈ dom ((fold_left (processItem w e fs) items acc).1).
Proof.
  induction items as [|x items IH]; intros acc Hacc; [done|].
  simpl. apply IH. intros d Hd.
  unfold processItem in *.
  destruct (findSymbol fs x) as [s|]; [|by apply Hacc].
  destruct (score x) as [sc|]; [|by apply Hacc].
  destruct (classify sc w e); simpl in *; rewrite dom_insert_L.
  - apply elem_of_app in Hd as [Hd| ->%list_elem_of_singleton]; [|set_solver].
    apply Hacc in Hd. set_solver.
  - apply Hacc in Hd. set_solver.
Qed.

Lemma fold_processItem_matched w e fs items : ∀ acc item s sc,
  item ∈ items -> findSymbol fs item = Some s -> score item = Some sc ->
  rangeToString (selectionRange s)
    ∈ dom ((fold_left (processItem w e fs) items acc).1).
Proof.
  induction items as [|x items IH]; intros acc item s sc Hin Hs Hsc;
    [by apply elem_of_nil in Hin|].
  simpl. apply elem_of_cons in Hin as [->|Hin]; [|by eapply IH].
  apply fold_processItem_cache_grows.
  rewrite (processItem_matched _ _ _ _ _ _ _ Hs Hsc). simpl.
  rewrite dom_insert_L. set_solver.
Qed.

(** * The claims *)

(** ** Score aggregation *)

(** C1 (amended).  For every forest, [getScoreSum] adds up the scores of all
    the nodes nested in a node, at every depth, so the net score the code
    gives a node is its score minus the scores of all its descendants;
    [flattenInner] walks the forest in pre-order (a parent before what is
    nested in it, siblings in order) and gives one entry, carrying the
    node's line and that net score, for exactly the nodes whose net score is
    positive and whose line is defined and not zero, whether or not an
    enclosing node gave an entry. *)
Theorem flattenInner_subtracts_all_descendants (forest : list ComplexityItem) :
  (∀ item, getScoreSum (default [] (inner item)) = sumScores (descendants item))
  ∧ flattenInner (Some forest)
    = flat_map (fun item =>
        if (0 <? netScore item) && truthy (line item)
        then [mkItem (Some (netScore item)) (line item) (inner item)]
        else [])
      (preorder forest)
  ∧ flattenInner None = [].
Proof.
  split; [|split; [|done]].
  - intros item. apply getScoreSum_preorder.
  - apply flattenInner_preorder.
Qed.

(** C1, as stated, fails: with a scope of score 5 nested in a scope of score
    10 nested in a function of score 15 on line 1, subtracting the direct
    child alone leaves 5 for the function, yet the code subtracts 10 + 5 and
    gives the function no entry. *)
Lemma flattenInner_not_direct_children :
  directNetScore (node 15 1 [node 10 2 [leaf 5 3]]) = 5
  ∧ flatten_spec exNested
    = [mkItem (Some 5) (Some 1) (Some [node 10 2 [leaf 5 3]]);
       mkItem (Some 5) (Some 2) (Some [leaf 5 3]); leaf 5 3]
  ∧ flattenInner (Some exNested)
    = [mkItem (Some 5) (Some 2) (Some [leaf 5 3]); leaf 5 3]
  ∧ flattenInner (Some exNested) ≠ flatten_spec exNested.
Proof. repeat split; done. Qed.

(** C2 (amended).  For every forest, the net scores of the emitted entries
    plus the net scores of the dropped nodes equal the total score of the
    forest minus, for every node below the top level, the scores of all the
    nodes nested in that node; the total is therefore kept when no top-level
    node has grandchildren, and a root of score 15 with one child of score 5
    and no grandchildren, both with lines, yields exactly the entries
    (root line, 10) and (child line, 5). *)
Theorem flatten_score_accounting :
  (∀ forest,
     emittedSum forest + droppedSum forest = totalScore forest - deepExcess forest)
  ∧ (∀ forest, shallow forest = true ->
       emittedSum forest + droppedSum forest = totalScore forest)
  ∧ (∀ rootLine childLine, rootLine ≠ 0 -> childLine ≠ 0 ->
       flattenInner (Some [node 15 rootLine [leaf 5 childLine]])
       = [mkItem (Some 10) (Some rootLine) (Some [leaf 5 childLine]);
          leaf 5 childLine]).
Proof.
  split; [apply sum_conservation|]. split.
  - intros forest Hs. rewrite sum_conservation, shallow_deepExcess by done. lia.
  - intros rl cl Hr Hc. rewrite flattenInner_preorder.
    unfold preorder, emitWith, netScore, descendants, preorder. simpl.
    destruct (rl =? 0) eqn:E1; [apply Z.eqb_eq in E1; done|].
    destruct (cl =? 0) eqn:E2; [apply Z.eqb_eq in E2; done|]. done.
Qed.

Lemma flatten_score_accounting_witness :
  shallow exTwoLevel = true
  ∧ emittedSum exTwoLevel + droppedSum exTwoLevel = totalScore exTwoLevel
  ∧ flattenInner (Some [node 15 1 [leaf 5 2]])
    = [mkItem (Some 10) (Some 1) (Some [leaf 5 2]); leaf 5 2].
Proof.
  split; [reflexivity|]. split.
  - apply (proj1 (proj2 flatten_score_accounting)). reflexivity.
  - apply (proj2 (proj2 flatten_score_accounting)); lia.
Defined.

(** C2, as stated, fails: for a function of score 20 holding a scope of
    score 10 holding a scope of score 5, all with lines, every node gives an
    entry (5, 5 and 5), nothing is dropped, and the entries add up to 15,
    not to the total 20. *)
Lemma flatten_loses_score :
  flattenInner (Some exChain)
  = [mkItem (Some 5) (Some 1) (Some [node 10 2 [leaf 5 3]]);
     mkItem (Some 5) (Some 2) (Some [leaf 5 3]); leaf 5 3]
  ∧ emittedSum exChain = 15
  ∧ droppedSum exChain = 0
  ∧ totalScore exChain = 20
  ∧ emittedSum exChain + droppedSum exChain ≠ totalScore exChain.
Proof. repeat split; done. Qed.

(** ** Symbol matching *)

Lemma keepFunction_kinds s :
  keepFunction s = true
  <-> kind s = KFunction ∨ kind s = KMethod ∨ kind s = KConstructor.
Proof.
  unfold keepFunction. destruct (kind s); simpl;
    (split; [intros ?; auto; discriminate|intros [?|[?|?]]; congruence]).
Qed.

Lemma find_filter {A} (p q : A -> bool) (l : list A) :
  find p (List.filter q l) = find (fun x => q x && p x) l.
Proof.
  induction l as [|x l IH]; [done|]. simpl.
  destruct (q x); simpl; [|done]. by rewrite IH.
Qed.

(** C3.  The symbols an entry is matched against are the symbols of the
    tree in pre-order restricted to the kinds function, method and
    constructor, the children of every symbol being scanned whatever its
    kind: a symbol of any other kind, a class for one, is never matched.
    The matched symbol is the first symbol of the pre-order that has one of
    the three kinds and whose 0-based selection start line is the entry's
    line minus 1, so the first in pre-order wins among several on that line;
    with no such symbol the entry changes neither the cached scores nor the
    diagnostics, and raises nothing.  Every entry of the flattening has a
    line and a score, so the line compared is the entry's 1-based line
    minus 1. *)
Theorem match_first_function_symbol
    (symbols : list DocumentSymbol) (item : ComplexityItem) :
  filterFunctionSymbols symbols
  = List.filter (fun s => match kind s with
                          | KFunction | KMethod | KConstructor => true
                          | _ => false
                          end) (symbolPreorder symbols)
  ∧ (∀ s, s ∈ filterFunctionSymbols symbols <->
          s ∈ symbolPreorder symbols
          ∧ (kind s = KFunction ∨ kind s = KMethod ∨ kind s = KConstructor))
  ∧ (∀ s, findSymbol (filterFunctionSymbols symbols) item = Some s <->
          ∃ before after,
            symbolPreorder symbols = before ++ s :: after
            ∧ (kind s = KFunction ∨ kind s = KMethod ∨ kind s = KConstructor)
            ∧ pline (start (selectionRange s)) = orZero (line item) - 1
            ∧ Forall (fun s' =>
                 kind s' = KFunction ∨ kind s' = KMethod ∨ kind s' = KConstructor ->
                 pline (start (selectionRange s')) ≠ orZero (line item) - 1)
                 before)
  ∧ (∀ s, findSymbol (filterFunctionSymbols symbols) item = Some s <->
          ∃ before after,
            filterFunctionSymbols symbols = before ++ s :: after
            ∧ pline (start (selectionRange s)) = orZero (line item) - 1
            ∧ Forall (fun s' => pline (start (selectionRange s'))
                                 ≠ orZero (line item) - 1) before)
  ∧ (findSymbol (filterFunctionSymbols symbols) item = None <->
     Forall (fun s' =>
          kind s' = KFunction ∨ kind s' = KMethod ∨ kind s' = KConstructor ->
          pline (start (selectionRange s')) ≠ orZero (line item) - 1)
       (symbolPreorder symbols))
  ∧ (findSymbol (filterFunctionSymbols symbols) item = None <->
     Forall (fun s' => pline (start (selectionRange s')) ≠ orZero (line item) - 1)
            (filterFunctionSymbols symbols))
  ∧ (findSymbol (filterFunctionSymbols symbols) item = None ->
     ∀ w e acc, processItem w e (filterFunctionSymbols symbols) acc item = acc)
  ∧ (∀ inner entry, entry ∈ flattenInner inner ->
       ∃ l sc, line entry = Some l ∧ l ≠ 0 ∧ score entry = Some sc
               ∧ orZero (line entry) - 1 = l - 1).
Proof.
  assert (Hboth : ∀ s, keepFunction s && onLineOf item s = true
            <-> (kind s = KFunction ∨ kind s = KMethod ∨ kind s = KConstructor)
                ∧ pline (start (selectionRange s)) = orZero (line item) - 1).
  { intros s. by rewrite andb_true_iff, keepFunction_kinds, onLineOf_true. }
  assert (Hnot : ∀ s, keepFunction s && onLineOf item s = false
            <-> (kind s = KFunction ∨ kind s = KMethod ∨ kind s = KConstructor ->
                 pline (start (selectionRange s)) ≠ orZero (line item) - 1)).
  { intros s. rewrite <- not_true_iff_false, Hboth. tauto. }
  split; [apply filterFunctionSymbols_preorder|].
  split; [|split; [|split; [|split; [|split; [|split]]]]].
  - intros s. rewrite filterFunctionSymbols_preorder, !list_elem_of_In, filter_In.
    by rewrite keepFunction_kinds.
  - intros s. unfold findSymbol.
    rewrite filterFunctionSymbols_preorder, find_filter, find_first.
    split; intros (before & after & E & Hs & Hb); exists before, after;
      (split; [done|]).
    + apply Hboth in Hs as [? ?]. do 2 (split; [done|]).
      eapply Forall_impl; eauto. intros s'. apply Hnot.
    + destruct Hb as [? Hb]. split; [by apply Hboth|].
      eapply Forall_impl; eauto. intros s'. apply Hnot.
  - intros s. unfold findSymbol. rewrite find_first.
    split; intros (before & after & E & Hs & Hb); exists before, after;
      (split; [done|]); (split; [by apply onLineOf_true|]);
      eapply Forall_impl; eauto; intros s'; apply onLineOf_false.
  - unfold findSymbol.
    rewrite filterFunctionSymbols_preorder, find_filter, find_nothing.
    split; intros Hb; eapply Forall_impl; eauto; intros s'; apply Hnot.
  - unfold findSymbol. rewrite find_nothing.
    split; intros Hb; eapply Forall_impl; eauto; intros s'; apply onLineOf_false.
  - intros Hnone w e acc. unfold processItem. by rewrite Hnone.
  - intros inner entry (l & sc & Hl & ? & ? & _)%flattenInner_entry.
    exists l, sc. by rewrite Hl.
Qed.

Lemma match_first_function_symbol_witness :
  findSymbol (filterFunctionSymbols exSymbols) (leaf 5 2) = Some exMethod
  ∧ findSymbol (filterFunctionSymbols exSymbols) (leaf 5 1) = None
  ∧ processItem 10 20 (filterFunctionSymbols exSymbols) (∅, []) (leaf 5 1) = (∅, []).
Proof.
  split; [|split].
  - apply (proj1 (proj2 (proj2 (match_first_function_symbol exSymbols (leaf 5 2))))).
    exists [mkSymbol "C" KClass (at_ 0 6) (at_ 0 6) [exMethod; exTwin]],
           [exTwin; exFunction].
    split; [reflexivity|]. split; [right; left; reflexivity|].
    split; [reflexivity|].
    constructor; [|constructor]. simpl. intros [H|[H|H]]; discriminate H.
  - apply (proj1 (proj2 (proj2 (proj2 (proj2
             (match_first_function_symbol exSymbols (leaf 5 1))))))).
    repeat constructor; simpl; intros [H|[H|H]]; (discriminate H || lia).
  - apply (proj1 (proj2 (proj2 (proj2 (proj2 (proj2 (proj2
             (match_first_function_symbol exSymbols (leaf 5 1))))))))).
    reflexivity.
Defined.

(** ** Classification *)

(** C4.  With the thresholds 10 and 20 a score of 10 gets no severity, 11
    and 20 get Warning and 21 gets Error; in general a score above the error
    threshold is an Error whatever the warning threshold, a score not above
    it is a Warning when above the warning threshold and gets no severity
    otherwise, in particular a positive score at or below the warning
    threshold of well-ordered thresholds. *)
Theorem classify_boundaries :
  classify 10 10 20 = None
  ∧ classify 11 10 20 = Some Warning
  ∧ classify 20 10 20 = Some Warning
  ∧ classify 21 10 20 = Some Error
  ∧ (∀ score w e, e < score -> classify score w e = Some Error)
  ∧ (∀ score w e, score <= e -> w < score -> classify score w e = Some Warning)
  ∧ (∀ score w e, score <= e -> score <= w -> classify score w e = None)
  ∧ (∀ score w e, w <= e -> score <= w -> classify score w e = None).
Proof.
  do 4 (split; [reflexivity|]). unfold classify.
  repeat split; intros score w e; intros;
    repeat (case_match; try done);
    repeat match goal with
           | H : (_ <? _) = true |- _ => apply Z.ltb_lt in H
           | H : (_ <? _) = false |- _ => apply Z.ltb_ge in H
           end; lia.
Qed.

Lemma classify_boundaries_witness :
  classify 25 10 20 = Some Error
  ∧ classify 15 10 20 = Some Warning
  ∧ classify 7 10 20 = None.
Proof.
  split; [|split].
  - apply (proj1 (proj2 (proj2 (proj2 (proj2 classify_boundaries))))). lia.
  - apply (proj1 (proj2 (proj2 (proj2 (proj2 (proj2 classify_boundaries)))))); lia.
  - apply (proj2 (proj2 (proj2 (proj2 (proj2 (proj2 (proj2 classify_boundaries))))))); lia.
Defined.

(** C5 (amended).  When the error threshold is lower than the warning
    threshold, every score above the error threshold is classified Error,
    because the error check is evaluated first and wins, and no score at all
    is classified Warning. *)
Theorem classify_misconfigured_error (score w e : Z) :
  e < w ->
  (e < score -> classify score w e = Some Error)
  ∧ classify score w e ≠ Some Warning.
Proof.
  intros Hew. unfold classify.
  destruct (e <? score) eqn:He; [by split|]. apply Z.ltb_ge in He.
  destruct (w <? score) eqn:Hw; [apply Z.ltb_lt in Hw; lia|].
  split; [lia|]. by destruct (0 <? score).
Qed.

Lemma classify_misconfigured_error_witness :
  classify 12 30 5 = Some Error ∧ classify 4 30 5 ≠ Some Warning.
Proof.
  split.
  - apply (classify_misconfigured_error 12 30 5); lia.
  - apply (classify_misconfigured_error 4 30 5). lia.
Defined.

(** C5, as stated, fails: with the warning threshold 20 and the error
    threshold 10, the score 15 is above the error threshold and is
    classified Error, not Warning. *)
Lemma classify_misconfigured_not_warning :
  classify 15 20 10 = Some Error ∧ classify 15 20 10 ≠ Some Warning.
Proof. split; done. Qed.

(** ** The debounced analysis *)

(** C6.  When a run in flight ends with the complexity service rejected, or
    with the symbol service rejected after the complexity service answered,
    nothing of the run is published: the entry of the document is removed
    from the published diagnostics and from the cached scores, whatever was
    there before, the entries of the other documents are as they were, and
    the error goes to the log only. *)
Theorem failed_run_clears_document
    (st : State) (i : nat) (run : Run) (output : Outcome FileOutput)
    (symbols : Outcome (option (list DocumentSymbol))) (err : string) :
  running st !! i = Some run ->
  output = Rejected err ∨ (∃ out, output = Resolved out ∧ symbols = Rejected err) ->
  ∃ st', step (RunCompletes i output symbols) st = Some st'
    ∧ diagnosticCollection st'
      = delete (uri (rdocument run)) (diagnosticCollection st)
    ∧ complexityScores st'
      = delete (uri (rdocument run)) (complexityScores st)
    ∧ diagnosticCollection st' !! uri (rdocument run) = None
    ∧ complexityScores st' !! uri (rdocument run) = None
    ∧ errorLog st'
      = errorLog st ++ ["tsCognilint: Error processing cognitive complexity: " +:+ err].
Proof.
  intros Hrun Hfail. cbn [step]. unfold runCompletes. rewrite Hrun.
  eexists. split; [done|]. unfold finishRun.
  assert (tryBlock run output symbols = Rejected err) as ->.
  { destruct Hfail as [->|(out & -> & ->)]; done. }
  cbn. rewrite !lookup_delete_eq. done.
Qed.

(** ** Cached scores and published diagnostics *)

Lemma failed_run_clears_document_witness :
  exec exStale initialState = Some exStaleState
  ∧ is_Some (diagnosticCollection exStaleState !! uri exDoc)
  ∧ ∃ st', step (RunCompletes 0 (Rejected "SyntaxError") (Resolved None))
                exStaleState = Some st'
      ∧ diagnosticCollection st' !! uri exDoc = None
      ∧ complexityScores st' !! uri exDoc = None
      ∧ errorLog st'
        = ["tsCognilint: Error processing cognitive complexity: SyntaxError"].
Proof.
  split; [vm_compute; reflexivity|].
  split; [eexists; vm_compute; reflexivity|].
  destruct (failed_run_clears_document exStaleState 0 (mkRun exDoc 10 20)
              (Rejected "SyntaxError") (Resolved None) "SyntaxError")
    as (st' & Hstep & _ & _ & Hd & Hs & Hl).
  - reflexivity.
  - left. reflexivity.
  - exists st'. split; [exact Hstep|]. split; [exact Hd|]. split; [exact Hs|].
    exact Hl.
Defined.

(** C7 (amended).  In every reachable state each document has at most one
    armed debounce timer; and a burst of qualifying events on a document,
    each less than the delay after the previous one, with events of other
    documents, timer firings and run completions in between, begins no run
    of the document and leaves exactly one timer armed for it, the timer of
    the last event, whose firing begins exactly one run and leaves no timer.
    (The number of runs in flight is not bounded by the code.) *)
Theorem debounce_one_timer_one_run (tr : list Label) (st : State) :
  exec tr initialState = Some st ->
  (∀ u, (length (timersOf u st) <= 1)%nat)
  ∧ (∀ u burst st',
       isBurst u burst = true -> exec burst st = Some st' ->
       ∃ t, timersOf u st' = [t]
            ∧ lastQualifying u burst = Some (tdocument t, tconfig t)
            ∧ runsBegun u st' = runsBegun u st
            ∧ (clock st' < dueAt t ∧ dueAt t <= clock st' + debounceDelay)%nat
            ∧ ∀ ms, (dueAt t <= clock st' + ms)%nat ->
                ∃ st3, exec [Elapse ms; TimerFires (handle t)] st' = Some st3
                       ∧ runsBegun u st3 = S (runsBegun u st)
                       ∧ timersOf u st3 = []).
Proof.
  intros Hreach.
  assert (W : wellTimed st) by (apply wellTimed_reachable; by exists tr).
  split; [intros u; by apply timersOf_at_most_one|].
  intros u burst st' Hb Hex.
  assert (W' := wellTimed_exec _ _ _ W Hex).
  destruct (burst_one_timer _ _ _ _ W Hb Hex) as (t & Hone & Hlast & Hruns & Hdue).
  exists t. do 4 (split; [done|]). intros ms Hms.
  destruct (pending_fires u t st' ms W' Hone Hms) as (st3 & H3 & Hr3 & Ht3 & _).
  exists st3. split; [done|]. split; [congruence|done].
Qed.

Lemma debounce_one_timer_one_run_witness :
  exec exStale initialState = Some exStaleState
  ∧ isBurst (uri exDoc) exBurst = true
  ∧ exec exBurst exStaleState = Some exBurstState
  ∧ (length (timersOf (uri exDoc) exStaleState) <= 1)%nat
  ∧ ∃ t, timersOf (uri exDoc) exBurstState = [t]
         ∧ lastQualifying (uri exDoc) exBurst = Some (tdocument t, tconfig t)
         ∧ runsBegun (uri exDoc) exBurstState = runsBegun (uri exDoc) exStaleState.
Proof.
  assert (H1 : exec exStale initialState = Some exStaleState)
    by (vm_compute; reflexivity).
  assert (H2 : exec exBurst exStaleState = Some exBurstState)
    by (vm_compute; reflexivity).
  split; [exact H1|]. split; [reflexivity|]. split; [exact H2|].
  destruct (debounce_one_timer_one_run exStale exStaleState H1) as [Hone Hburst].
  split; [apply Hone|].
  destruct (Hburst (uri exDoc) exBurst exBurstState eq_refl H2)
    as (t & Ht & Hlast & Hruns & _).
  exists t. split; [exact Ht|]. split; [exact Hlast|exact Hruns].
Defined.

(** C7, as stated, fails: when an event arrives after a timer has fired and
    the new timer fires before the first run has completed, two runs of the
    same document are in flight. *)
Lemma two_runs_in_flight :
  ∃ st, exec exOverlap initialState = Some st
        ∧ runsInFlight (uri exDoc) st = [mkRun exDoc 10 20; mkRun exDoc 10 20]
        ∧ length (runsInFlight (uri exDoc) st) = 2%nat.
Proof. eexists. split; [vm_compute; reflexivity|]. split; reflexivity. Qed.

Lemma filter_delete_other {A} (P : A -> Prop) `{∀ x, Decision (P x)}
    (l : list A) : ∀ i x,
  l !! i = Some x -> ¬ P x -> filter P (delete i l) = filter P l.
Proof.
  induction l as [|y l IH]; intros [|i] x Hi Hx; try done; simpl in *.
  - injection Hi as ->. by rewrite filter_cons_False.
  - rewrite !filter_cons. rewrite (IH i x Hi Hx). done.
Qed.

(** Cancelling a handle that no timer of [u] carries leaves the timers of
    [u] as they are. *)
Lemma timersOf_clearTimeout_frame u h st :
  (∀ t, t ∈ timers st -> uri (tdocument t) = u -> handle t ≠ h) ->
  timersOf u (clearTimeout h st) = timersOf u st.
Proof.
  intros Hh. unfold timersOf. cbn [timers clearTimeout].
  rewrite filter_swap.
  induction (timers st) as [|t l IH]; [done|].
  rewrite (filter_cons (λ t, uri (tdocument t) = u)).
  destruct (decide (uri (tdocument t) = u)) as [E|E].
  - rewrite filter_cons_True by (apply Hh; [left|done]).
    rewrite IH; [done|]. intros t' Ht'. apply Hh. by right.
  - apply IH. intros t' Ht'. apply Hh. by right.
Qed.

Lemma timersOf_processActiveFile_other u document config st :
  wellTimed st -> uri <$> document ≠ Some u ->
  timersOf u (processActiveFile document config st) = timersOf u st.
Proof.
  intros W Hne. unfold processActiveFile. destruct document as [d|]; [|done].
  assert (uri d ≠ u) by (intros E; apply Hne; simpl; by rewrite E).
  destruct (isSupportedLanguage d); simpl; [|done].
  destruct (enabled config); simpl; [|done].
  unfold timersOf at 1. cbn [timers armTimer]. rewrite filter_app.
  rewrite filter_cons_False, filter_nil, app_nil_r by done.
  destruct (debounceTimers st !! uri d) as [h|] eqn:Hd; [|done].
  fold (timersOf u (clearTimeout h st)). apply timersOf_clearTimeout_frame.
  intros t Ht Hu. eapply other_handle; eauto. congruence.
Qed.

Lemma timersOf_closeTextDocument_other u doc st :
  wellTimed st -> uri doc ≠ u ->
  timersOf u (closeTextDocument doc st) = timersOf u st.
Proof.
  intros W Hne. unfold closeTextDocument.
  destruct (debounceTimers (clearDocument (uri doc) st) !! uri doc)
    as [h|] eqn:Hd; [|done].
  change (timersOf u (clearTimeout h st) = timersOf u st).
  apply timersOf_clearTimeout_frame.
  intros t Ht Hu. eapply other_handle; eauto. congruence.
Qed.

(** An event leaves the documents it does not act on as they are. *)
Lemma step_frame u l st st' :
  wellTimed st -> step l st = Some st' -> subject l st ≠ Some u ->
  diagnosticCollection st' !! u = diagnosticCollection st !! u
  ∧ complexityScores st' !! u = complexityScores st !! u
  ∧ timersOf u st' = timersOf u st
  ∧ runsInFlight u st' = runsInFlight u st.
Proof.
  intros W Hstep Hsub.
  destruct l as [document config|doc|ms|h|i output symbols];
    cbn [step subject] in Hstep, Hsub.
  - injection Hstep as <-.
    split; [|split; [|split; [by apply timersOf_processActiveFile_other|]]];
      unfold processActiveFile; destruct document as [d|]; try done;
      assert (uri d ≠ u) by (intros E; apply Hsub; simpl; by rewrite E);
      destruct (isSupportedLanguage d); simpl; try (by rewrite lookup_delete_ne);
      destruct (enabled config); simpl; try (by rewrite lookup_delete_ne);
      by destruct (debounceTimers st !! uri d).
  - injection Hstep as <-. assert (uri doc ≠ u) by congruence.
    split; [|split; [|split; [by apply timersOf_closeTextDocument_other|]]];
      unfold closeTextDocument;
      destruct (debounceTimers (clearDocument (uri doc) st) !! uri doc);
      simpl; by rewrite ?lookup_delete_ne.
  - by injection Hstep as <-.
  - unfold timerFires in Hstep.
    destruct (find _ (timers st)) as [t|] eqn:Hf; [|done].
    destruct (dueAt t <=? clock st)%nat; [|done]. injection Hstep as <-.
    cbn [fmap option_fmap option_map] in Hsub.
    assert (uri (tdocument t) ≠ u) by congruence.
    apply find_handle in Hf as [Ht Hh]. do 2 (split; [done|]). split.
    + change (timersOf u (clearTimeout h st) = timersOf u st).
      apply timersOf_clearTimeout_frame. intros t' Ht' Hu E.
      assert (t' = t) by (eapply handle_inj; eauto using handles_distinct; congruence).
      congruence.
    + unfold runsInFlight. cbn [running beginRun forgetTimer clearTimeout].
      rewrite filter_app, filter_cons_False, filter_nil, app_nil_r; done.
  - unfold runCompletes in Hstep.
    destruct (running st !! i) as [run|] eqn:Hrun; [|done]. injection Hstep as <-.
    cbn [fmap option_fmap option_map] in Hsub.
    assert (uri (rdocument run) ≠ u) by congruence.
    unfold finishRun.
    destruct (tryBlock run output symbols) as [[cs ds]|err]; simpl;
      rewrite ?lookup_insert_ne, ?lookup_delete_ne by done;
      (do 3 (split; [done|])); unfold runsInFlight; simpl;
      by apply (filter_delete_other _ _ _ run).
Qed.

Lemma no_timer_unregistered u st :
  wellTimed st -> timersOf u st = [] -> debounceTimers st !! u = None.
Proof.
  intros W Hnone. destruct (debounceTimers st !! u) as [h|] eqn:Hu; [|done].
  destruct (registered_armed st W u h Hu) as (t & Ht & _ & E).
  assert (t ∈ timersOf u st) as Hin by (by apply list_elem_of_filter).
  rewrite Hnone in Hin. by apply elem_of_nil in Hin.
Qed.

(** With no run of a forgotten document in flight, only a qualifying event
    on the document brings anything back. *)
Lemma forgotten_step u l st st' :
  wellTimed st -> forgotten u st -> runsInFlight u st = [] ->
  qualifies u l = false -> step l st = Some st' ->
  forgotten u st' ∧ runsInFlight u st' = [].
Proof.
  intros W (Hd & Hs & Ht) Hr Hq Hstep.
  destruct (decide (subject l st = Some u)) as [Hsub|Hsub].
  - destruct l as [document config|doc|ms|h|i output symbols];
      cbn [step subject] in Hstep, Hsub.
    + injection Hstep as <-. destruct document as [d|]; [|done].
      injection Hsub as Hu.
      assert (processActiveFile (Some d) config st = clearDocument u st) as ->.
      { unfold processActiveFile. simpl in Hq.
        rewrite bool_decide_eq_true_2 in Hq by done. simpl in Hq. rewrite Hu.
        destruct (isSupportedLanguage d); [|done].
        by destruct (enabled config). }
      split; [|done]. unfold forgotten.
      cbn [diagnosticCollection complexityScores clearDocument].
      rewrite !lookup_delete_eq. done.
    + injection Hstep as <-. injection Hsub as Hu. subst u.
      destruct (close_clears doc st W) as (? & ? & _ & ?).
      split; [done|]. rewrite <- Hr. unfold closeTextDocument.
      by destruct (debounceTimers (clearDocument (uri doc) st) !! uri doc).
    + done.
    + exfalso. destruct (find _ (timers st)) as [t|] eqn:Hf; [|done].
      injection Hsub as Hu. apply find_handle in Hf as [Hin _].
      assert (t ∈ timersOf u st) as Hin' by (by apply list_elem_of_filter).
      rewrite Ht in Hin'. by apply elem_of_nil in Hin'.
    + exfalso. destruct (running st !! i) as [run|] eqn:Hrun; [|done].
      injection Hsub as Hu.
      assert (run ∈ runsInFlight u st) as Hin.
      { apply list_elem_of_filter. split; [done|].
        apply list_elem_of_lookup. eauto. }
      rewrite Hr in Hin. by apply elem_of_nil in Hin.
  - destruct (step_frame u l st st' W Hstep Hsub) as (E1 & E2 & E3 & E4).
    unfold forgotten. by rewrite E1, E2, E3, E4.
Qed.

Lemma forgotten_exec u tr : ∀ st st',
  wellTimed st -> forgotten u st -> runsInFlight u st = [] ->
  Forall (fun l => qualifies u l = false) tr -> exec tr st = Some st' ->
  forgotten u st' ∧ wellTimed st'.
Proof.
  induction tr as [|l tr IH]; intros st st' W F Hr Hq Hex.
  - by injection Hex as <-.
  - apply Forall_cons in Hq as [Hl Hq]. cbn [exec] in Hex.
    destruct (step l st) as [st1|] eqn:Hstep; [|done].
    destruct (forgotten_step u l st st1 W F Hr Hl Hstep) as [F1 Hr1].
    apply (IH st1); eauto using wellTimed_step.
Qed.

(** C8 (amended).  In whatever reachable state a document is closed, right
    after the close handler the document has no published diagnostics, no
    cached scores, no entry in the timer map and no armed timer; and when no
    run of the document was in flight at the close, it stays so through
    every later event, until a qualifying event on the document.  (A run in
    flight at the close is not cancelled and stores its diagnostics and
    scores for the closed document when it completes.) *)
Theorem close_clears_document (tr : list Label) (st : State) (doc : TextDocument) :
  exec tr initialState = Some st ->
  ∃ st', step (CloseTextDocument doc) st = Some st'
    ∧ diagnosticCollection st' !! uri doc = None
    ∧ complexityScores st' !! uri doc = None
    ∧ debounceTimers st' !! uri doc = None
    ∧ timersOf (uri doc) st' = []
    ∧ (runsInFlight (uri doc) st = [] ->
       ∀ later st'',
         Forall (fun l => qualifies (uri doc) l = false) later ->
         exec later st' = Some st'' ->
         diagnosticCollection st'' !! uri doc = None
         ∧ complexityScores st'' !! uri doc = None
         ∧ debounceTimers st'' !! uri doc = None
         ∧ timersOf (uri doc) st'' = []).
Proof.
  intros Hreach. exists (closeTextDocument doc st). split; [done|].
  assert (W : wellTimed st) by (apply wellTimed_reachable; by exists tr).
  destruct (close_clears doc st W) as (Hd & Hs & Hm & Ht).
  do 4 (split; [done|]). intros Hr later st'' Hq Hex.
  assert (W' := wellTimed_closeTextDocument doc st W).
  assert (Hr' : runsInFlight (uri doc) (closeTextDocument doc st) = []).
  { rewrite <- Hr. unfold closeTextDocument.
    by destruct (debounceTimers (clearDocument (uri doc) st) !! uri doc). }
  destruct (forgotten_exec (uri doc) later _ st'' W' (conj Hd (conj Hs Ht)) Hr' Hq Hex)
    as [(Hd2 & Hs2 & Ht2) W2].
  do 2 (split; [done|]). split; [by apply no_timer_unregistered|done].
Qed.

Lemma close_clears_document_witness :
  exec exBurst exStaleState = Some exBurstState
  ∧ is_Some (diagnosticCollection exBurstState !! uri exDoc)
  ∧ timersOf (uri exDoc) exBurstState ≠ []
  ∧ running exBurstState ≠ []
  ∧ (∃ st', step (CloseTextDocument exDoc) exBurstState = Some st'
      ∧ diagnosticCollection st' !! uri exDoc = None
      ∧ complexityScores st' !! uri exDoc = None
      ∧ debounceTimers st' !! uri exDoc = None
      ∧ timersOf (uri exDoc) st' = [])
  ∧ exec exPublished initialState = Some exPublishedState
  ∧ is_Some (diagnosticCollection exPublishedState !! uri exDoc)
  ∧ runsInFlight (uri exDoc) exPublishedState = []
  ∧ ∃ st'', exec exLater (closeTextDocument exDoc exPublishedState) = Some st''
      ∧ is_Some (diagnosticCollection st'' !! uri exOther)
      ∧ diagnosticCollection st'' !! uri exDoc = None
      ∧ complexityScores st'' !! uri exDoc = None
      ∧ debounceTimers st'' !! uri exDoc = None
      ∧ timersOf (uri exDoc) st'' = [].
Proof.
  split; [vm_compute; reflexivity|].
  split; [eexists; vm_compute; reflexivity|].
  split; [by vm_compute|]. split; [by vm_compute|]. split.
  { destruct (close_clears_document (exStale ++ exBurst) exBurstState exDoc
                ltac:(vm_compute; reflexivity))
      as (st' & Hstep & Hd & Hs & Hm & Ht & _).
    exists st'. split; [exact Hstep|]. split; [exact Hd|]. split; [exact Hs|].
    split; [exact Hm|exact Ht]. }
  split; [vm_compute; reflexivity|].
  split; [eexists; vm_compute; reflexivity|].
  split; [reflexivity|].
  destruct (close_clears_document exPublished exPublishedState exDoc
              ltac:(vm_compute; reflexivity))
    as (st' & Hstep & _ & _ & _ & _ & Hlater).
  injection Hstep as <-.
  destruct (exec exLater (closeTextDocument exDoc exPublishedState))
    as [st''|] eqn:Hex; [|by vm_compute in Hex].
  exists st''. split; [reflexivity|].
  split; [vm_compute in Hex; injection Hex as <-; eexists; vm_compute; reflexivity|].
  apply (Hlater eq_refl exLater st''); [|exact Hex].
  repeat constructor.
Defined.

(** C8, as stated, fails: a document closed while a run of it is in flight
    has no diagnostics right after the close handler, but the handler does
    not cancel the run, and when the run completes it publishes diagnostics
    and caches scores for the closed document. *)
Lemma run_in_flight_outlives_close :
  ∃ stClosed st,
    exec [ProcessActiveFile (Some exDoc) exOn; Elapse 300; TimerFires 1;
          CloseTextDocument exDoc] initialState = Some stClosed
    ∧ runsInFlight (uri exDoc) stClosed = [mkRun exDoc 10 20]
    ∧ diagnosticCollection stClosed !! uri exDoc = None
    ∧ step (RunCompletes 0 (Resolved exOutput) (Resolved (Some exSymbols)))
           stClosed = Some st
    ∧ diagnosticCollection st !! uri exDoc
      = Some [mkDiagnostic (at_ 5 9) "Cognitive Complexity: 15" Warning
                           "tsCognilint"]
    ∧ is_Some (complexityScores st !! uri exDoc).
Proof.
  do 2 eexists. split; [vm_compute; reflexivity|].
  do 4 (split; [vm_compute; reflexivity|]).
  eexists. vm_compute. reflexivity.
Qed.

(** C9, evaluated.  An event arms a timer for a document; a further call
    with the extension disabled, or with the document in an unsupported
    language, clears the diagnostics and the scores but leaves the timer
    armed and registered, where the close handler cancels it; the timer then
    fires and the run publishes diagnostics for the document. *)
Lemma disabled_keeps_pending_timer :
  ∃ st stOff stPlain stClosed stLater,
    exec [ProcessActiveFile (Some exDoc) exOn] initialState = Some st
    ∧ step (ProcessActiveFile (Some exDoc) exOff) st = Some stOff
    ∧ step (ProcessActiveFile
              (Some (mkDocument (uri exDoc) "plaintext" (fileName exDoc))) exOn) st
      = Some stPlain
    ∧ step (CloseTextDocument exDoc) st = Some stClosed
    ∧ timersOf (uri exDoc) stOff = [mkTimer 1 300 exDoc exOn]
    ∧ debounceTimers stOff !! uri exDoc = Some 1%nat
    ∧ stPlain = stOff
    ∧ timersOf (uri exDoc) stClosed = []
    ∧ debounceTimers stClosed !! uri exDoc = None
    ∧ exec [Elapse 300; TimerFires 1;
            RunCompletes 0 (Resolved exOutput) (Resolved (Some exSymbols))] stOff
      = Some stLater
    ∧ diagnosticCollection stLater !! uri exDoc
      = Some [mkDiagnostic (at_ 5 9) "Cognitive Complexity: 15" Warning "tsCognilint"].
Proof.
  do 5 eexists. do 4 (split; [vm_compute; reflexivity|]).
  do 5 (split; [vm_compute; reflexivity|]).
  split; vm_compute; reflexivity.
Qed.

(** C10.  For an entry matched to a symbol, the loop stores the entry's
    score in the run's cache under the string of the symbol's selection
    range before it looks at the severity, and adds a diagnostic only when
    the score is classified; so after the loop every matched symbol's range
    string is a key of the cache, every diagnostic's range string is a key
    of the cache, and a successful run stores that cache and those
    diagnostics for the document. *)
Theorem scores_cached_before_severity :
  (∀ w e fs acc item s sc,
     findSymbol fs item = Some s -> score item = Some sc ->
     (processItem w e fs acc item).1
     = <[rangeToString (selectionRange s) := sc]> (acc.1)
     ∧ (processItem w e fs acc item).2
       = acc.2 ++ match classify sc w e with
                  | Some sev => [mkDiagnostic (selectionRange s)
                                   ("Cognitive Complexity: " +:+ pretty sc)
                                   sev "tsCognilint"]
                  | None => []
                  end)
  ∧ (∀ w e fs items item s sc,
       item ∈ items -> findSymbol fs item = Some s -> score item = Some sc ->
       rangeToString (selectionRange s) ∈ dom ((matchItems w e fs items).1))
  ∧ (∀ w e fs items d,
       d ∈ (matchItems w e fs items).2 ->
       rangeToString (drange d) ∈ dom ((matchItems w e fs items).1))
  ∧ (∀ st i run out syms,
       running st !! i = Some run ->
       ∃ st', step (RunCompletes i (Resolved out) (Resolved syms)) st = Some st'
         ∧ complexityScores st' !! uri (rdocument run)
           = Some ((matchItems (rwarningThreshold run) (rerrorThreshold run)
                      (filterFunctionSymbols (default [] syms))
                      (flattenInner (outputInner out))).1)
         ∧ diagnosticCollection st' !! uri (rdocument run)
           = Some ((matchItems (rwarningThreshold run) (rerrorThreshold run)
                      (filterFunctionSymbols (default [] syms))
                      (flattenInner (outputInner out))).2)).
Proof.
  split; [|split; [|split]].
  - intros w e fs acc item s sc Hs Hsc.
    by rewrite (processItem_matched _ _ _ _ _ _ _ Hs Hsc).
  - intros w e fs items item s sc. apply fold_processItem_matched.
  - intros w e fs items d. apply fold_processItem_published.
    by intros d' ?%elem_of_nil.
  - intros st i run out syms Hrun. cbn [step]. unfold runCompletes. rewrite Hrun.
    eexists. split; [done|]. unfold finishRun. cbn [tryBlock].
    destruct (matchItems _ _ _ _) as [cs ds]. cbn.
    by rewrite !lookup_insert_eq.
Qed.

Lemma scores_cached_before_severity_witness :
  classify 5 10 20 = None
  ∧ (matchItems 10 20 (filterFunctionSymbols exSymbols) exItems).1
      !! rangeToString (selectionRange exMethod) = Some 5
  ∧ rangeToString (selectionRange exMethod)
      ∈ dom ((matchItems 10 20 (filterFunctionSymbols exSymbols) exItems).1)
  ∧ (matchItems 10 20 (filterFunctionSymbols exSymbols) exItems).2
    = [mkDiagnostic (at_ 5 9) "Cognitive Complexity: 15" Warning "tsCognilint"]
  ∧ rangeToString (at_ 5 9)
      ∈ dom ((matchItems 10 20 (filterFunctionSymbols exSymbols) exItems).1).
Proof.
  split; [reflexivity|]. split; [vm_compute; reflexivity|]. split.
  - apply (proj1 (proj2 scores_cached_before_severity) 10 20
             (filterFunctionSymbols exSymbols) exItems (leaf 5 2) exMethod 5).
    + left.
    + reflexivity.
    + reflexivity.
  - split; [reflexivity|].
    apply (proj1 (proj2 (proj2 scores_cached_before_severity)) 10 20
             (filterFunctionSymbols exSymbols) exItems
             (mkDiagnostic (at_ 5 9) "Cognitive Complexity: 15" Warning "tsCognilint")).
    vm_compute. left.
Defined.

(** * Further properties of the code *)

(** ** [getScoreSum] and [flattenInner] on their own *)

Lemma preorder_app l1 l2 : preorder (l1 ++ l2) = preorder l1 ++ preorder l2.
Proof. unfold preorder. apply flat_map_app. Qed.

Lemma sumScores_perm l1 l2 : l1 ≡ₚ l2 -> sumScores l1 = sumScores l2.
Proof.
  induction 1 as [|x l1 l2 _ IH|x y l|l1 l2 l3 _ IH1 _ IH2];
    rewrite ?sumScores_cons; lia.
Qed.

Lemma preorder_perm l1 l2 : l1 ≡ₚ l2 -> preorder l1 ≡ₚ preorder l2.
Proof. apply Permutation_flat_map. Qed.

(** X1.  [getScoreSum] of an empty array is 0, it adds over concatenation,
    and it does not depend on the order of the items. *)
Theorem getScoreSum_additive :
  getScoreSum [] = 0
  ∧ (∀ l1 l2, getScoreSum (l1 ++ l2) = getScoreSum l1 + getScoreSum l2)
  ∧ (∀ l1 l2, l1 ≡ₚ l2 -> getScoreSum l1 = getScoreSum l2).
Proof.
  split; [done|]. split.
  - intros l1 l2. by rewrite !getScoreSum_preorder, preorder_app, sumScores_app.
  - intros l1 l2 Hp. rewrite !getScoreSum_preorder.
    by apply sumScores_perm, preorder_perm.
Qed.

Lemma getScoreSum_additive_witness :
  getScoreSum (exNested ++ exTwoLevel) = getScoreSum (exTwoLevel ++ exNested).
Proof.
  apply (proj2 (proj2 getScoreSum_additive)). apply Permutation_app_comm.
Defined.

Lemma emitWith_length net item : (length (emitWith net item) <= 1)%nat.
Proof. unfold emitWith. destruct (_ && _); simpl; lia. Qed.

Lemma flat_map_emit_length net l :
  (length (flat_map (emitWith net) l) <= length l)%nat.
Proof.
  induction l as [|x l IH]; [done|]. simpl. rewrite length_app.
  pose proof (emitWith_length net x). lia.
Qed.

(** X2.  Flattening the concatenation of two arrays gives the entries of
    the first followed by those of the second, an absent array flattens like
    an empty one, and there is at most one entry per node of the tree. *)
Theorem flattenInner_concat :
  (∀ l1 l2, flattenInner (Some (l1 ++ l2))
            = flattenInner (Some l1) ++ flattenInner (Some l2))
  ∧ flattenInner None = flattenInner (Some [])
  ∧ (∀ forest, (length (flattenInner (Some forest)) <= length (preorder forest))%nat).
Proof.
  split; [|split; [done|]].
  - intros l1 l2. by rewrite !flattenInner_preorder, preorder_app, flat_map_app.
  - intros forest. rewrite flattenInner_preorder. apply flat_map_emit_length.
Qed.

Lemma sumScores_nonneg l :
  Forall (fun n => 0 <= orZero (score n)) l -> 0 <= sumScores l.
Proof.
  induction 1 as [|x l Hx _ IH]; [done|]. rewrite sumScores_cons. lia.
Qed.

Lemma descendants_closed item : ∀ n m,
  In n (nodesOf item) -> In m (descendants n) -> In m (descendants item).
Proof.
  induction item as [s l i IH] using ComplexityItem_nested_ind.
  intros n m Hn Hm. rewrite nodesOf_eq in Hn. destruct Hn as [<-|Hn]; [done|].
  change (In n (preorder (default [] i))) in Hn.
  change (In m (preorder (default [] i))).
  cbn [inner] in IH. unfold preorder in Hn |- *.
  apply in_flat_map in Hn as (c & Hc & Hn). apply in_flat_map.
  exists c. split; [done|]. rewrite nodesOf_eq. right.
  rewrite Forall_forall in IH. apply (IH c) with (n := n); [|done..].
  by apply list_elem_of_In.
Qed.

Lemma preorder_descendants_incl forest n m :
  n ∈ preorder forest -> m ∈ descendants n -> m ∈ preorder forest.
Proof.
  rewrite !list_elem_of_In. unfold preorder. rewrite !in_flat_map.
  intros (r & Hr & Hn) Hm. exists r. split; [done|].
  rewrite nodesOf_eq. right. by eapply descendants_closed.
Qed.

(** X3.  Every entry of the flattening is a node of the tree with its
    score replaced: it keeps the node's line and [inner], and its score is
    the node's score minus [getScoreSum] of the node's [inner]; when no
    score in the tree is negative, the entry's score is at most the node's
    own score. *)
Theorem flattenInner_entry_of_node (forest : list ComplexityItem)
    (entry : ComplexityItem) :
  entry ∈ flattenInner (Some forest) ->
  ∃ n, n ∈ preorder forest
       ∧ line entry = line n
       ∧ inner entry = inner n
       ∧ score entry
         = Some (orZero (score n) - getScoreSum (default [] (inner n)))
       ∧ (Forall (fun m => 0 <= orZero (score m)) (preorder forest) ->
          ∃ sc, score entry = Some sc ∧ 0 < sc <= orZero (score n)).
Proof.
  rewrite flattenInner_preorder, list_elem_of_In, in_flat_map.
  intros (n & Hn%list_elem_of_In & Hin). exists n. split; [done|].
  unfold emitWith in Hin.
  destruct (0 <? netScore n) eqn:Hnet; [|done].
  destruct (truthy (line n)); [|done]. destruct Hin as [<-|[]]. simpl.
  rewrite adjustedScore_netScore. do 3 (split; [done|]).
  intros Hpos. exists (netScore n). split; [done|].
  apply Z.ltb_lt in Hnet. split; [done|]. unfold netScore.
  assert (0 <= sumScores (descendants n)); [|lia].
  apply sumScores_nonneg. rewrite Forall_forall in Hpos |- *.
  intros m Hm. apply Hpos. eapply preorder_descendants_incl; eauto.
Qed.

Lemma flattenInner_entry_of_node_witness :
  ∃ n, n ∈ preorder exChain
       ∧ line (mkItem (Some 5) (Some 2) (Some [leaf 5 3])) = line n
       ∧ inner (mkItem (Some 5) (Some 2) (Some [leaf 5 3])) = inner n
       ∧ score (mkItem (Some 5) (Some 2) (Some [leaf 5 3]))
         = Some (orZero (score n) - getScoreSum (default [] (inner n))).
Proof.
  destruct (flattenInner_entry_of_node exChain
              (mkItem (Some 5) (Some 2) (Some [leaf 5 3])))
    as (n & Hn & Hl & Hi & Hs & _).
  - vm_compute. right. left.
  - exists n. split; [exact Hn|]. split; [exact Hl|]. split; [exact Hi|exact Hs].
Defined.

(** X4.  An array without nesting is filtered, not changed: when no item
    has items in [inner], the flattening is the array restricted to the
    items with a positive score and a line other than 0. *)
Theorem flattenInner_without_nesting (forest : list ComplexityItem) :
  forallb isLeaf forest = true ->
  flattenInner (Some forest)
  = List.filter (fun item => (0 <? orZero (score item)) && truthy (line item))
                forest.
Proof.
  intros Hleaf. rewrite flattenInner_preorder, (leaves_preorder _ Hleaf).
  induction forest as [|x l IH]; [done|].
  apply andb_prop in Hleaf as [Hx Hl]. cbn [flat_map List.filter].
  rewrite (IH Hl). unfold emitWith, netScore.
  rewrite (isLeaf_descendants x Hx). cbn [sumScores foldr].
  rewrite Z.sub_0_r. destruct (0 <? orZero (score x)) eqn:Hs; [|done].
  destruct (truthy (line x)); [|done]. simpl. f_equal.
  destruct x as [[sc|] ln inn]; [done|]. by apply Z.ltb_lt in Hs.
Qed.

Lemma flattenInner_without_nesting_witness :
  flattenInner (Some [leaf 5 2; leaf 0 3; mkItem (Some 4) None None; leaf 15 6])
  = [leaf 5 2; leaf 15 6].
Proof.
  apply (flattenInner_without_nesting
           [leaf 5 2; leaf 0 3; mkItem (Some 4) None None; leaf 15 6]).
  reflexivity.
Defined.

(** ** [filterFunctionSymbols] and [rangeToString] on their own *)

Lemma symbolPreorder_app l1 l2 :
  symbolPreorder (l1 ++ l2) = symbolPreorder l1 ++ symbolPreorder l2.
Proof. unfold symbolPreorder. apply flat_map_app. Qed.

(** X5.  Filtering the concatenation of two symbol arrays gives the
    functions of the first followed by those of the second; every symbol
    returned is a function, a method or a constructor of the tree, and a
    tree without any yields the empty array. *)
Theorem filterFunctionSymbols_concat :
  (∀ l1 l2, filterFunctionSymbols (l1 ++ l2)
            = filterFunctionSymbols l1 ++ filterFunctionSymbols l2)
  ∧ (∀ symbols s, s ∈ filterFunctionSymbols symbols ->
        s ∈ symbolPreorder symbols
        ∧ (kind s = KFunction ∨ kind s = KMethod ∨ kind s = KConstructor))
  ∧ (∀ symbols,
        Forall (fun s => isFunctionKind (kind s) = false) (symbolPreorder symbols) ->
        filterFunctionSymbols symbols = []).
Proof.
  split; [|split].
  - intros l1 l2.
    by rewrite !filterFunctionSymbols_preorder, symbolPreorder_app, List.filter_app.
  - intros symbols s. rewrite filterFunctionSymbols_preorder, list_elem_of_In.
    intros [Hin Hk]%filter_In. split; [by apply list_elem_of_In|].
    unfold keepFunction in Hk. destruct (kind s); try done; auto.
  - intros symbols Hnone. rewrite filterFunctionSymbols_preorder.
    induction Hnone as [|x l Hx _ IH]; [done|].
    cbn [List.filter]. unfold keepFunction at 1. by rewrite Hx.
Qed.

Lemma filterFunctionSymbols_concat_witness :
  exMethod ∈ symbolPreorder exSymbols
  ∧ filterFunctionSymbols [mkSymbol "C" KClass (at_ 0 6) (at_ 0 6) []] = [].
Proof.
  split.
  - apply (proj1 (proj2 filterFunctionSymbols_concat) exSymbols exMethod).
    vm_compute. left.
  - apply (proj2 (proj2 filterFunctionSymbols_concat)). repeat constructor.
Defined.

Lemma app_sep_inj c s1 : ∀ s2 r1 r2,
  occurs c s1 = false -> occurs c s2 = false ->
  s1 +:+ String c r1 = s2 +:+ String c r2 -> s1 = s2 ∧ r1 = r2.
Proof.
  induction s1 as [|a s1 IH]; intros [|b s2] r1 r2 H1 H2 E; simpl in *.
  - by injection E as ->.
  - injection E as <- _. apply orb_false_elim in H2 as [H2 _].
    by apply bool_decide_eq_false in H2.
  - injection E as -> _. apply orb_false_elim in H1 as [H1 _].
    by apply bool_decide_eq_false in H1.
  - injection E as -> E. apply orb_false_elim in H1 as [_ H1].
    apply orb_false_elim in H2 as [_ H2].
    destruct (IH _ _ _ H1 H2 E) as [-> ->]. done.
Qed.

Lemma occurs_pretty_N_go c x : ∀ s,
  (∀ d, pretty_N_char d ≠ c) -> occurs c s = false ->
  occurs c (pretty_N_go x s) = false.
Proof.
  induction (N.lt_wf_0 x) as [x _ IH]; intros s Hc Hs.
  assert (x = 0 ∨ 0 < x)%N as [->|Hx] by lia; [by rewrite pretty_N_go_0|].
  rewrite pretty_N_go_step by done. apply IH; [by apply N.div_lt|done|].
  simpl. rewrite Hs, orb_false_r. apply bool_decide_eq_false, Hc.
Qed.

Lemma occurs_pretty_N c (x : N) :
  (∀ d, pretty_N_char d ≠ c) -> occurs c (pretty x) = false.
Proof.
  intros Hc. unfold pretty, pretty_N. case_decide.
  - simpl. rewrite orb_false_r. apply bool_decide_eq_false. apply (Hc 0%N).
  - by apply occurs_pretty_N_go.
Qed.

Lemma comma_not_digit d : pretty_N_char d ≠ ","%char.
Proof. unfold pretty_N_char. by repeat case_match. Qed.

Lemma dash_not_digit d : pretty_N_char d ≠ "-"%char.
Proof. unfold pretty_N_char. by repeat case_match. Qed.

Lemma pretty_Z_no_comma (z : Z) : occurs "," (pretty z) = false.
Proof.
  destruct z as [|p|p]; [done|..].
  - apply (occurs_pretty_N _ (Npos p)), comma_not_digit.
  - change (pretty (Z.neg p)) with (String "-" (pretty (Npos p))).
    simpl. apply (occurs_pretty_N _ (Npos p)), comma_not_digit.
Qed.

Lemma pretty_N_go_length x : ∀ s,
  (String.length s <= String.length (pretty_N_go x s))%nat.
Proof.
  induction (N.lt_wf_0 x) as [x _ IH]; intros s.
  assert (x = 0 ∨ 0 < x)%N as [->|Hx] by lia; [by rewrite pretty_N_go_0|].
  rewrite pretty_N_go_step by done.
  etrans; [|apply IH; by apply N.div_lt]. simpl. lia.
Qed.

Lemma pretty_N_nonempty (x : N) : pretty x ≠ "".
Proof.
  unfold pretty, pretty_N. case_decide; [done|].
  assert (0 < x)%N as Hx by lia. rewrite pretty_N_go_step by done.
  intros E. pose proof (pretty_N_go_length (x `div` 10)
    (String (pretty_N_char (x `mod` 10)) "")) as Hlen.
  rewrite E in Hlen. simpl in Hlen. lia.
Qed.

(** A number printed before a dash is read back without ambiguity. *)
Lemma pretty_Z_dash_inj (x y : Z) r1 r2 :
  pretty x +:+ String "-" r1 = pretty y +:+ String "-" r2 -> x = y ∧ r1 = r2.
Proof.
  assert (Hnat : ∀ z : Z, 0 <= z -> pretty z = pretty (Z.to_N z)).
  { intros [|p|p] Hz; [done|done|lia]. }
  assert (Hnodash : ∀ n : N, occurs "-" (pretty n) = false).
  { intros n. apply occurs_pretty_N, dash_not_digit. }
  destruct (Z_lt_le_dec x 0) as [Hx|Hx], (Z_lt_le_dec y 0) as [Hy|Hy].
  - destruct x as [|p|p]; try lia. destruct y as [|q|q]; try lia.
    change (pretty (Z.neg p)) with (String "-" (pretty (Npos p))).
    change (pretty (Z.neg q)) with (String "-" (pretty (Npos q))).
    simpl. intros [= E]. apply app_sep_inj in E as [E ->]; [|done..].
    apply (inj pretty) in E. split; [congruence|done].
  - destruct x as [|p|p]; try lia.
    change (pretty (Z.neg p)) with (String "-" (pretty (Npos p))).
    rewrite (Hnat y Hy). intros E. exfalso.
    change (String "-" (pretty (N.pos p)) +:+ String "-" r1)
      with ("" +:+ String "-" (pretty (N.pos p) +:+ String "-" r1)) in E.
    apply app_sep_inj in E as [E _]; [|done..].
    by apply (pretty_N_nonempty (Z.to_N y)).
  - destruct y as [|q|q]; try lia.
    change (pretty (Z.neg q)) with (String "-" (pretty (Npos q))).
    rewrite (Hnat x Hx). intros E. exfalso.
    change (String "-" (pretty (N.pos q)) +:+ String "-" r2)
      with ("" +:+ String "-" (pretty (N.pos q) +:+ String "-" r2)) in E.
    apply app_sep_inj in E as [E _]; [|done..].
    by apply (pretty_N_nonempty (Z.to_N x)).
  - rewrite (Hnat x Hx), (Hnat y Hy). intros E.
    apply app_sep_inj in E as [E ->]; [|done..].
    apply (inj pretty) in E. split; [lia|done].
Qed.

(** X6.  [rangeToString] gives different strings to different ranges. *)
Theorem rangeToString_inj (r1 r2 : Range) :
  rangeToString r1 = rangeToString r2 -> r1 = r2.
Proof.
  destruct r1 as [[l1 c1] [l1' c1']], r2 as [[l2 c2] [l2' c2']].
  unfold rangeToString. cbn [start end_ pline character].
  change ("," +:+ ?s) with (String "," s). change ("-" +:+ ?s) with (String "-" s).
  intros E.
  apply app_sep_inj in E as [E1 E]; [|apply pretty_Z_no_comma..].
  apply pretty_Z_dash_inj in E as [-> E].
  apply app_sep_inj in E as [E3 E4]; [|apply pretty_Z_no_comma..].
  apply (inj pretty) in E1, E3, E4. by subst.
Qed.

Lemma rangeToString_inj_witness :
  rangeToString (at_ 1 2) = "1,2-1,3" ∧ at_ 1 2 = mkRange (mkPosition 1 2) (mkPosition 1 3).
Proof.
  split; [reflexivity|]. apply (rangeToString_inj (at_ 1 2)). reflexivity.
Defined.

(** ** The severity decision and the matching loop *)

(** X7.  The severity never decreases when the score grows, whatever the
    two thresholds; it is never [Information] or [Hint]; and there is no
    severity exactly when the score is above neither threshold. *)
Theorem classify_monotone (w e : Z) :
  (∀ s1 s2, s1 <= s2 ->
     (severityRank (classify s1 w e) <= severityRank (classify s2 w e))%nat)
  ∧ (∀ s, classify s w e ≠ Some Information ∧ classify s w e ≠ Some Hint)
  ∧ (∀ s, classify s w e = None <-> s <= e ∧ s <= w).
Proof.
  unfold classify. split; [|split].
  - intros s1 s2 Hle.
    destruct (e <? s1) eqn:E1, (e <? s2) eqn:E2, (w <? s1) eqn:W1,
             (w <? s2) eqn:W2, (0 <? s1), (0 <? s2); simpl; try lia;
      repeat match goal with
             | H : (_ <? _) = true |- _ => apply Z.ltb_lt in H
             | H : (_ <? _) = false |- _ => apply Z.ltb_ge in H
             end; lia.
  - intros s. by destruct (e <? s), (w <? s), (0 <? s).
  - intros s. destruct (e <? s) eqn:E1, (w <? s) eqn:W1, (0 <? s);
      repeat match goal with
             | H : (_ <? _) = true |- _ => apply Z.ltb_lt in H
             | H : (_ <? _) = false |- _ => apply Z.ltb_ge in H
             end; split; try done; try lia; intros [? ?]; lia.
Qed.

Lemma classify_monotone_witness :
  (severityRank (classify 11 10 20) <= severityRank (classify 21 10 20))%nat
  ∧ classify 7 10 20 = None.
Proof.
  split.
  - apply (proj1 (classify_monotone 10 20)). lia.
  - apply (proj2 (proj2 (classify_monotone 10 20))). lia.
Defined.

(** The diagnostic the loop pushes for one entry, if any. *)
Lemma processItem_step w e fs acc item :
  processItem w e fs acc item
  = match findSymbol fs item, score item with
    | Some s, Some sc =>
        (<[rangeToString (selectionRange s) := sc]> (acc.1),
         acc.2 ++ match classify sc w e with
                  | Some sev => [mkDiagnostic (selectionRange s)
                                   ("Cognitive Complexity: " +:+ pretty sc)
                                   sev "tsCognilint"]
                  | None => []
                  end)
    | _, _ => acc
    end.
Proof.
  destruct (findSymbol fs item) as [s|] eqn:Hs;
    [|by unfold processItem; rewrite Hs; destruct acc].
  destruct (score item) as [sc|] eqn:Hsc;
    [|by unfold processItem; rewrite Hs, Hsc; destruct acc].
  by apply processItem_matched.
Qed.

Lemma fold_processItem_diagnostics w e fs items : ∀ acc d,
  d ∈ (fold_left (processItem w e fs) items acc).2 ->
  d ∈ acc.2
  ∨ ∃ item s sc, item ∈ items ∧ findSymbol fs item = Some s
      ∧ score item = Some sc
      ∧ classify sc w e = Some (severity d)
      ∧ d = mkDiagnostic (selectionRange s)
              ("Cognitive Complexity: " +:+ pretty sc) (severity d) "tsCognilint".
Proof.
  induction items as [|x items IH]; intros acc d Hd; [by left|].
  cbn [fold_left] in Hd. apply IH in Hd as [Hd|(item & s & sc & Hin & Hrest)].
  - rewrite processItem_step in Hd.
    destruct (findSymbol fs x) as [s|] eqn:Hs; [|by left].
    destruct (score x) as [sc|] eqn:Hsc; [|by left].
    cbn [snd] in Hd. apply elem_of_app in Hd as [Hd|Hd]; [by left|].
    destruct (classify sc w e) as [sev|] eqn:Hc; [|by apply elem_of_nil in Hd].
    apply list_elem_of_singleton in Hd as ->. right.
    exists x, s, sc. split; [left|]. done.
  - right. exists item, s, sc. split; [by right|done].
Qed.

Lemma fold_processItem_length w e fs items : ∀ acc,
  (length ((fold_left (processItem w e fs) items acc).2)
   <= length (acc.2) + length items)%nat.
Proof.
  induction items as [|x items IH]; intros acc; [simpl; lia|].
  cbn [fold_left]. etrans; [apply IH|]. rewrite processItem_step.
  destruct (findSymbol fs x) as [s|]; [|simpl; lia].
  destruct (score x) as [sc|]; [|simpl; lia].
  cbn [snd]. rewrite length_app. destruct (classify sc w e); simpl; lia.
Qed.

(** X8.  Every diagnostic of a run carries the source "tsCognilint", the
    severity Error or Warning that the score of some matched entry is
    classified as, the message "Cognitive Complexity: " followed by that
    score, and the selection range of the function symbol the entry was
    matched to; there are at most as many diagnostics as entries. *)
Theorem diagnostics_of_matched_entries (w e : Z) (fs : list DocumentSymbol)
    (items : list ComplexityItem) :
  (∀ d, d ∈ (matchItems w e fs items).2 ->
     source d = "tsCognilint"
     ∧ (severity d = Error ∨ severity d = Warning)
     ∧ ∃ item s sc, item ∈ items ∧ s ∈ fs
         ∧ findSymbol fs item = Some s ∧ score item = Some sc
         ∧ classify sc w e = Some (severity d)
         ∧ drange d = selectionRange s
         ∧ message d = "Cognitive Complexity: " +:+ pretty sc)
  ∧ (length ((matchItems w e fs items).2) <= length items)%nat.
Proof.
  split; [|apply (fold_processItem_length w e fs items (∅, []))].
  intros d Hd. apply fold_processItem_diagnostics in Hd
    as [Hd|(item & s & sc & Hin & Hs & Hsc & Hc & Hd)];
    [by apply elem_of_nil in Hd|].
  split; [by rewrite Hd|]. split.
  - unfold classify in Hc.
    destruct (severity d); [by left|by right|..];
      by destruct (e <? sc), (w <? sc), (0 <? sc).
  - exists item, s, sc. do 2 (split; [done || idtac|]).
    + apply find_some in Hs as [Hs _]. by apply list_elem_of_In.
    + do 3 (split; [done|]). by rewrite Hd.
Qed.

Lemma diagnostics_of_matched_entries_witness :
  source (mkDiagnostic (at_ 5 9) "Cognitive Complexity: 15" Warning "tsCognilint")
  = "tsCognilint"
  ∧ (length ((matchItems 10 20 (filterFunctionSymbols exSymbols) exItems).2)
     <= length exItems)%nat.
Proof.
  split.
  - apply (proj1 (diagnostics_of_matched_entries 10 20
                    (filterFunctionSymbols exSymbols) exItems)).
    vm_compute. left.
  - apply (proj2 (diagnostics_of_matched_entries 10 20
                    (filterFunctionSymbols exSymbols) exItems)).
Defined.

Lemma processItem_cache w e fs acc item :
  (processItem w e fs acc item).1
  = match cachedBy fs item with
    | Some (k, sc) => <[k := sc]> (acc.1)
    | None => acc.1
    end.
Proof.
  rewrite processItem_step. unfold cachedBy.
  destruct (findSymbol fs item); [|done]. by destruct (score item).
Qed.

Lemma fold_processItem_lookup w e fs key items : ∀ acc,
  (fold_left (processItem w e fs) items acc).1 !! key
  = match last (scoresAt fs key items) with
    | Some sc => Some sc
    | None => acc.1 !! key
    end.
Proof.
  induction items as [|x items IH]; intros acc; [done|].
  cbn [fold_left]. rewrite IH, processItem_cache. unfold scoresAt.
  cbn [omap list_omap]. fold (scoresAt fs key items).
  destruct (cachedBy fs x) as [[k sc]|]; [|done].
  destruct (decide (k = key)) as [->|Hne].
  - rewrite last_cons. destruct (last (scoresAt fs key items)); [done|].
    by rewrite lookup_insert_eq.
  - destruct (last (scoresAt fs key items)); [done|].
    by rewrite lookup_insert_ne.
Qed.

Lemma cache_keeps_last_score_aux w e fs items key :
  (matchItems w e fs items).1 !! key = last (scoresAt fs key items).
Proof.
  unfold matchItems. rewrite fold_processItem_lookup. cbn [fst].
  rewrite lookup_empty. by destruct (last _).
Qed.

(** X9.  Under a key the cache of a run holds the score of the last entry
    matched to a symbol with that range string, and nothing when no entry
    was; in particular an entry matched later to the same symbol overwrites
    the score of an earlier one. *)
Theorem cache_keeps_last_score (w e : Z) (fs : list DocumentSymbol)
    (items : list ComplexityItem) (key : string) :
  (matchItems w e fs items).1 !! key = last (scoresAt fs key items).
Proof. apply cache_keeps_last_score_aux. Qed.

Lemma scoresAt_symbol fs key items sc :
  sc ∈ scoresAt fs key items ->
  ∃ item s, item ∈ items ∧ s ∈ fs ∧ findSymbol fs item = Some s
            ∧ score item = Some sc ∧ key = rangeToString (selectionRange s).
Proof.
  unfold scoresAt. rewrite list_elem_of_omap. intros (item & Hin & Hc).
  unfold cachedBy in Hc.
  destruct (findSymbol fs item) as [s|] eqn:Hs; [|done].
  destruct (score item) as [sc'|] eqn:Hsc; [|done].
  case_decide as Hk; [|done]. injection Hc as ->.
  exists item, s. split; [done|]. split; [|done].
  apply find_some in Hs as [Hs _]. by apply list_elem_of_In.
Qed.

(** X10.  Every key of the cache of a run is the range string of a function
    symbol that some entry with a score was matched to; with no function
    symbols, or with no entries, the run caches nothing and publishes
    nothing. *)
Theorem cache_keys_are_matched_symbols (w e : Z) :
  (∀ fs items key, key ∈ dom ((matchItems w e fs items).1) ->
     ∃ item s sc, item ∈ items ∧ s ∈ fs ∧ findSymbol fs item = Some s
       ∧ score item = Some sc ∧ key = rangeToString (selectionRange s))
  ∧ (∀ items, matchItems w e [] items = (∅, []))
  ∧ (∀ fs, matchItems w e fs [] = (∅, [])).
Proof.
  split; [|split; [|done]].
  - intros fs items key [sc Hsc]%elem_of_dom.
    rewrite cache_keeps_last_score_aux in Hsc.
    apply last_Some_elem_of in Hsc.
    destruct (scoresAt_symbol _ _ _ _ Hsc) as (item & s & ? & ? & ? & ? & ?).
    by exists item, s, sc.
  - intros items. unfold matchItems.
    generalize (∅ : gmap string Z, [] : list Diagnostic).
    induction items as [|x items IH]; intros acc; [done|].
    cbn [fold_left]. rewrite processItem_step. by rewrite IH.
Qed.

Lemma cache_keys_are_matched_symbols_witness :
  ∃ item s sc, item ∈ exItems ∧ s ∈ filterFunctionSymbols exSymbols
    ∧ findSymbol (filterFunctionSymbols exSymbols) item = Some s
    ∧ score item = Some sc
    ∧ rangeToString (at_ 5 9) = rangeToString (selectionRange s).
Proof.
  apply (proj1 (cache_keys_are_matched_symbols 10 20)
           (filterFunctionSymbols exSymbols) exItems (rangeToString (at_ 5 9))).
  apply elem_of_dom. exists 15. vm_compute. reflexivity.
Defined.

(** ** The handlers and the states they reach *)

(** X11.  In every reachable state an event leaves the documents it does
    not act on alone: their published diagnostics, their cached scores,
    their armed timer and their runs in flight are as before. *)
Theorem other_documents_untouched (tr : list Label) (st st' : State)
    (l : Label) (u : string) :
  exec tr initialState = Some st ->
  step l st = Some st' ->
  subject l st ≠ Some u ->
  diagnosticCollection st' !! u = diagnosticCollection st !! u
  ∧ complexityScores st' !! u = complexityScores st !! u
  ∧ timersOf u st' = timersOf u st
  ∧ runsInFlight u st' = runsInFlight u st.
Proof.
  intros Hreach Hstep Hsub.
  assert (W : wellTimed st) by (apply wellTimed_reachable; by exists tr).
  destruct l as [document config|doc|ms|h|i output symbols];
    cbn [step subject] in Hstep, Hsub.
  - injection Hstep as <-.
    split; [|split; [|split; [by apply timersOf_processActiveFile_other|]]];
      unfold processActiveFile; destruct document as [d|]; try done;
      assert (uri d ≠ u) by (intros E; apply Hsub; simpl; by rewrite E);
      destruct (isSupportedLanguage d); simpl; try (by rewrite lookup_delete_ne);
      destruct (enabled config); simpl; try (by rewrite lookup_delete_ne);
      by destruct (debounceTimers st !! uri d).
  - injection Hstep as <-. assert (uri doc ≠ u) by congruence.
    split; [|split; [|split; [by apply timersOf_closeTextDocument_other|]]];
      unfold closeTextDocument;
      destruct (debounceTimers (clearDocument (uri doc) st) !! uri doc);
      simpl; by rewrite ?lookup_delete_ne.
  - by injection Hstep as <-.
  - unfold timerFires in Hstep.
    destruct (find _ (timers st)) as [t|] eqn:Hf; [|done].
    destruct (dueAt t <=? clock st)%nat; [|done]. injection Hstep as <-.
    cbn [fmap option_fmap option_map] in Hsub.
    assert (uri (tdocument t) ≠ u) by congruence.
    apply find_handle in Hf as [Ht Hh]. do 2 (split; [done|]). split.
    + change (timersOf u (clearTimeout h st) = timersOf u st).
      apply timersOf_clearTimeout_frame. intros t' Ht' Hu E.
      assert (t' = t) by (eapply handle_inj; eauto using handles_distinct; congruence).
      congruence.
    + unfold runsInFlight. cbn [running beginRun forgetTimer clearTimeout].
      rewrite filter_app, filter_cons_False, filter_nil, app_nil_r; done.
  - unfold runCompletes in Hstep.
    destruct (running st !! i) as [run|] eqn:Hrun; [|done]. injection Hstep as <-.
    cbn [fmap option_fmap option_map] in Hsub.
    assert (uri (rdocument run) ≠ u) by congruence.
    unfold finishRun.
    destruct (tryBlock run output symbols) as [[cs ds]|err]; simpl;
      rewrite ?lookup_insert_ne, ?lookup_delete_ne by done;
      (do 3 (split; [done|])); unfold runsInFlight; simpl;
      by apply (filter_delete_other _ _ _ run).
Qed.

Lemma other_documents_untouched_witness :
  diagnosticCollection (closeTextDocument exOther exBurstState) !! uri exDoc
  = diagnosticCollection exBurstState !! uri exDoc
  ∧ timersOf (uri exDoc) (closeTextDocument exOther exBurstState)
    = timersOf (uri exDoc) exBurstState.
Proof.
  destruct (other_documents_untouched (exStale ++ exBurst) exBurstState
              (closeTextDocument exOther exBurstState)
              (CloseTextDocument exOther) (uri exDoc))
    as (Hd & _ & Ht & _).
  - vm_compute. reflexivity.
  - reflexivity.
  - discriminate.
  - split; [exact Hd|exact Ht].
Defined.

(** X12.  Closing a document twice is the same as closing it once, and
    closing a document that has no diagnostics, no cached scores and no
    registered timer changes nothing. *)
Theorem closeTextDocument_idempotent (doc : TextDocument) (st : State) :
  closeTextDocument doc (closeTextDocument doc st) = closeTextDocument doc st
  ∧ (diagnosticCollection st !! uri doc = None ->
     complexityScores st !! uri doc = None ->
     debounceTimers st !! uri doc = None ->
     closeTextDocument doc st = st).
Proof.
  split.
  - unfold closeTextDocument. cbn [debounceTimers clearDocument].
    destruct (debounceTimers st !! uri doc) as [h|] eqn:Hd;
      cbn [debounceTimers forgetTimer clearTimeout clearDocument].
    + rewrite lookup_delete_eq. unfold clearDocument. cbn.
      by rewrite !delete_delete_eq.
    + rewrite Hd. unfold clearDocument. cbn. by rewrite !delete_delete_eq.
  - intros Hdiag Hscores Htimer. unfold closeTextDocument.
    cbn [debounceTimers clearDocument]. rewrite Htimer.
    unfold clearDocument. rewrite !delete_id by done. by destruct st.
Qed.

Lemma closeTextDocument_idempotent_witness :
  closeTextDocument exOther initialState = initialState.
Proof.
  apply (proj2 (closeTextDocument_idempotent exOther initialState));
    reflexivity.
Defined.

(** A qualifying event leaves exactly the timer it arms, under the next
    handle, due one delay from now. *)
Lemma timersOf_armed d config st :
  wellTimed st -> isSupportedLanguage d = true -> enabled config = true ->
  timersOf (uri d) (processActiveFile (Some d) config st)
  = [mkTimer (nextHandle st) (clock st + debounceDelay) d config]
  ∧ running (processActiveFile (Some d) config st) = running st
  ∧ clock (processActiveFile (Some d) config st) = clock st.
Proof.
  intros W Hs He. unfold processActiveFile. rewrite Hs, He. cbn [negb].
  destruct (debounceTimers st !! uri d) as [h|] eqn:Hd.
  - split; [|done]. unfold timersOf. cbn [timers armTimer]. rewrite filter_app.
    fold (timersOf (uri d) (clearTimeout h st)).
    rewrite timersOf_clearTimeout_own by done. by rewrite filter_cons_True.
  - split; [|done]. unfold timersOf. cbn [timers armTimer]. rewrite filter_app.
    fold (timersOf (uri d) st).
    rewrite timersOf_unregistered by done. by rewrite filter_cons_True.
Qed.

(** X13.  From any reachable state, one qualifying event on a document,
    the delay, the firing of the timer the event armed and the answers of
    the two services publish for the document exactly the diagnostics, and
    cache exactly the scores, that the matching loop computes from those
    answers under the thresholds of the event's configuration; no timer of
    the document remains and the runs that were in flight still are. *)
Theorem event_to_published_diagnostics (tr : list Label) (st : State)
    (d : TextDocument) (config : Configuration) (out : FileOutput)
    (syms : option (list DocumentSymbol)) :
  exec tr initialState = Some st ->
  isSupportedLanguage d = true ->
  enabled config = true ->
  ∃ st', exec [ProcessActiveFile (Some d) config; Elapse debounceDelay;
               TimerFires (nextHandle st);
               RunCompletes (length (running st)) (Resolved out) (Resolved syms)]
              st = Some st'
    ∧ diagnosticCollection st' !! uri d
      = Some ((matchItems (warningThreshold config) (errorThreshold config)
                 (filterFunctionSymbols (default [] syms))
                 (flattenInner (outputInner out))).2)
    ∧ complexityScores st' !! uri d
      = Some ((matchItems (warningThreshold config) (errorThreshold config)
                 (filterFunctionSymbols (default [] syms))
                 (flattenInner (outputInner out))).1)
    ∧ timersOf (uri d) st' = []
    ∧ running st' = running st.
Proof.
  intros Hreach Hs He.
  assert (W : wellTimed st) by (apply wellTimed_reachable; by exists tr).
  destruct (timersOf_armed d config st W Hs He) as (Hone & Hrun1 & Hclock1).
  assert (W1 := wellTimed_processActiveFile (Some d) config st W).
  destruct (pending_fires (uri d) _ _ debounceDelay W1 Hone)
    as (st3 & H3 & _ & Ht3 & Hrun3); [cbn [dueAt]; rewrite Hclock1; lia|].
  cbn [handle tdocument tconfig] in H3, Hrun3. rewrite Hrun1 in Hrun3.
  cbn [exec step] in H3 |- *.
  destruct (timerFires (nextHandle st)
              (elapse debounceDelay (processActiveFile (Some d) config st)))
    as [st3'|] eqn:Hfire; [|done].
  injection H3 as ->.
  unfold runCompletes. rewrite Hrun3.
  rewrite lookup_app_r, Nat.sub_diag by done. cbn [lookup list_lookup].
  eexists. split; [done|]. unfold finishRun. cbn [tryBlock].
  cbn [rwarningThreshold rerrorThreshold rdocument].
  destruct (matchItems _ _ _ _) as [cs ds]. cbn.
  rewrite !lookup_insert_eq. do 2 (split; [done|]).
  split; [exact Ht3|].
  by rewrite delete_middle, app_nil_r.
Qed.

Lemma event_to_published_diagnostics_witness :
  ∃ st', exec [ProcessActiveFile (Some exDoc) exOn; Elapse debounceDelay;
               TimerFires (nextHandle exBurstState);
               RunCompletes (length (running exBurstState))
                 (Resolved exOutput) (Resolved (Some exSymbols))]
              exBurstState = Some st'
    ∧ diagnosticCollection st' !! uri exDoc
      = Some [mkDiagnostic (at_ 5 9) "Cognitive Complexity: 15" Warning
                           "tsCognilint"].
Proof.
  destruct (event_to_published_diagnostics (exStale ++ exBurst) exBurstState
              exDoc exOn exOutput (Some exSymbols))
    as (st' & Hex & Hd & _).
  - vm_compute. reflexivity.
  - reflexivity.
  - reflexivity.
  - exists st'. split; [exact Hex|exact Hd].
Defined.

(** *** What every reachable state satisfies *)

Lemma storeConsistent_initial : storeConsistent initialState.
Proof.
  split; simpl.
  - intros u. by rewrite !lookup_empty.
  - intros u ds d Hu. by rewrite lookup_empty in Hu.
  - intros u Hu. rewrite lookup_empty in Hu. by destruct Hu.
  - by intros r ?%elem_of_nil.
  - by intros t ?%elem_of_nil.
Qed.

Lemma storeConsistent_clearDocument u st :
  storeConsistent st -> storeConsistent (clearDocument u st).
Proof.
  intros [S P R B T]. split; cbn [diagnosticCollection complexityScores
    runsStarted running timers clearDocument]; [| | |done|done].
  - intros v. destruct (decide (u = v)) as [->|Hne].
    + by rewrite !lookup_delete_eq.
    + by rewrite !lookup_delete_ne.
  - intros v ds d [Hne Hv]%lookup_delete_Some Hd.
    rewrite lookup_delete_ne by done. by eapply P.
  - intros v [ds [Hne Hv]%lookup_delete_Some]. apply R. by exists ds.
Qed.

Lemma storeConsistent_timers st st' :
  storeConsistent st ->
  diagnosticCollection st' = diagnosticCollection st ->
  complexityScores st' = complexityScores st ->
  runsStarted st' = runsStarted st ->
  running st' = running st ->
  (∀ t, t ∈ timers st' ->
        isSupportedLanguage (tdocument t) = true ∧ enabled (tconfig t) = true) ->
  storeConsistent st'.
Proof.
  intros [S P R B T] Hd Hs Hr Hb Ht.
  split; rewrite ?Hd, ?Hs, ?Hr, ?Hb; done.
Qed.

Lemma storeConsistent_processActiveFile document config st :
  storeConsistent st -> storeConsistent (processActiveFile document config st).
Proof.
  intros C. unfold processActiveFile. destruct document as [d|]; [|done].
  destruct (isSupportedLanguage d) eqn:Hs; simpl;
    [|by apply storeConsistent_clearDocument].
  destruct (enabled config) eqn:He; simpl;
    [|by apply storeConsistent_clearDocument].
  apply (storeConsistent_timers st); [done|by destruct (debounceTimers st !! uri d)..|].
  cbn [timers armTimer].
  intros t [Ht| ->%list_elem_of_singleton]%elem_of_app; [|done].
  apply (timers_qualified st C).
  destruct (debounceTimers st !! uri d);
    [by apply list_elem_of_filter in Ht as [_ ?]|done].
Qed.

Lemma storeConsistent_closeTextDocument doc st :
  storeConsistent st -> storeConsistent (closeTextDocument doc st).
Proof.
  intros C. unfold closeTextDocument.
  assert (C1 := storeConsistent_clearDocument (uri doc) st C).
  destruct (debounceTimers (clearDocument (uri doc) st) !! uri doc) as [h|];
    [|done].
  apply (storeConsistent_timers (clearDocument (uri doc) st)); [done..|].
  cbn [timers forgetTimer clearTimeout].
  intros t [_ Ht]%list_elem_of_filter. by apply (timers_qualified _ C1).
Qed.

Lemma storeConsistent_timerFires h st st' :
  storeConsistent st -> timerFires h st = Some st' -> storeConsistent st'.
Proof.
  intros C. unfold timerFires.
  destruct (find _ (timers st)) as [t|] eqn:Hf; [|done].
  destruct (dueAt t <=? clock st)%nat; [|done]. intros [= <-].
  apply find_handle in Hf as [Ht _].
  destruct (timers_qualified st C t Ht) as [Hs He].
  destruct C as [S P R B T].
  split; cbn [diagnosticCollection complexityScores runsStarted running timers
              beginRun forgetTimer clearTimeout]; [done|done| | |].
  - intros u Hu. apply elem_of_app. left. by apply R.
  - intros r [Hr| ->%list_elem_of_singleton]%elem_of_app.
    + destruct (B r Hr). split; [|done]. apply elem_of_app. by left.
    + split; [|done]. apply elem_of_app. right. by apply list_elem_of_singleton.
  - intros t' [_ Ht']%list_elem_of_filter. by apply T.
Qed.

Lemma matchItems_published w e fs items d :
  d ∈ (matchItems w e fs items).2 ->
  source d = "tsCognilint"
  ∧ (severity d = Error ∨ severity d = Warning)
  ∧ rangeToString (drange d) ∈ dom ((matchItems w e fs items).1).
Proof.
  intros Hd. split; [|split].
  - apply fold_processItem_diagnostics in Hd
      as [Hd|(item & s & sc & _ & _ & _ & _ & ->)]; [by apply elem_of_nil in Hd|done].
  - apply fold_processItem_diagnostics in Hd
      as [Hd|(item & s & sc & _ & _ & _ & Hc & _)]; [by apply elem_of_nil in Hd|].
    unfold classify in Hc.
    destruct (severity d); [by left|by right|..];
      by destruct (e <? sc), (w <? sc), (0 <? sc).
  - revert Hd. apply fold_processItem_published. by intros d' ?%elem_of_nil.
Qed.

Lemma storeConsistent_runCompletes i output symbols st st' :
  storeConsistent st -> runCompletes i output symbols st = Some st' ->
  storeConsistent st'.
Proof.
  intros C. unfold runCompletes.
  destruct (running st !! i) as [run|] eqn:Hrun; [|done]. intros [= <-].
  assert (Hin : run ∈ running st) by (apply list_elem_of_lookup; eauto).
  destruct (running_began st C run Hin) as [Hbegan Hsup].
  assert (C0 : storeConsistent
    (mkState (diagnosticCollection st) (complexityScores st) (debounceTimers st)
       (timers st) (nextHandle st) (clock st) (delete i (running st))
       (runsStarted st) (errorLog st))).
  { destruct C as [S P R B T]. split; try done.
    cbn [running]. intros r Hr. apply B. by eapply list_elem_of_delete_inv. }
  unfold finishRun.
  destruct (tryBlock run output symbols) as [[cs ds]|err] eqn:Htry.
  - assert (Hres : ∃ w e fs items, (cs, ds) = matchItems w e fs items).
    { unfold tryBlock in Htry. destruct output as [out|]; [|done].
      destruct symbols as [syms|]; [|done]. injection Htry as <-. eauto. }
    destruct Hres as (w & e & fs & items & Hres).
    destruct C0 as [S P R B T].
    split; cbn [diagnosticCollection complexityScores runsStarted running timers];
      [| | |done|done].
    + intros u. destruct (decide (uri (rdocument run) = u)) as [<-|Hne].
      * by rewrite !lookup_insert_eq.
      * rewrite !lookup_insert_ne by done. apply S.
    + intros u ds' d. destruct (decide (uri (rdocument run) = u)) as [<-|Hne].
      * rewrite !lookup_insert_eq. intros [= <-] Hd.
        assert (d ∈ (matchItems w e fs items).2) as Hd' by (by rewrite <- Hres).
        apply matchItems_published in Hd' as (? & ? & Hk).
        do 2 (split; [done|]). exists cs. split; [done|]. by rewrite <- Hres in Hk.
      * rewrite !lookup_insert_ne by done. apply P.
    + intros u. destruct (decide (uri (rdocument run) = u)) as [<-|Hne]; [done|].
      rewrite lookup_insert_ne by done. apply R.
  - apply storeConsistent_clearDocument.
    destruct C0 as [S P R B T]. by split.
Qed.

Lemma storeConsistent_step l st st' :
  storeConsistent st -> step l st = Some st' -> storeConsistent st'.
Proof.
  intros C. destruct l; simpl.
  - intros [= <-]. by apply storeConsistent_processActiveFile.
  - intros [= <-]. by apply storeConsistent_closeTextDocument.
  - intros [= <-]. destruct C. by split.
  - by apply storeConsistent_timerFires.
  - by apply storeConsistent_runCompletes.
Qed.

Lemma storeConsistent_reachable tr : ∀ st st',
  storeConsistent st -> exec tr st = Some st' -> storeConsistent st'.
Proof.
  induction tr as [|l tr IH]; intros st st' C; simpl.
  - by intros [= <-].
  - destruct (step l st) as [st1|] eqn:E; [|done].
    apply IH. by eapply storeConsistent_step.
Qed.

(** X14.  In every reachable state the timer map holds exactly the armed
    timers: a handle is registered for a document exactly when a timer
    with that handle is armed for that document, and no two armed timers
    share a handle. *)
Theorem debounce_map_is_armed_timers (tr : list Label) (st : State) :
  exec tr initialState = Some st ->
  (∀ u h, debounceTimers st !! u = Some h
          <-> ∃ t, t ∈ timers st ∧ handle t = h ∧ uri (tdocument t) = u)
  ∧ NoDup (handle <$> timers st).
Proof.
  intros Hreach.
  assert (W : wellTimed st) by (apply wellTimed_reachable; by exists tr).
  split; [|apply (handles_distinct st W)].
  intros u h. split; [apply (registered_armed st W)|].
  intros (t & Ht & <- & <-). by apply (timer_registered st W).
Qed.

Lemma debounce_map_is_armed_timers_witness :
  debounceTimers exBurstState !! uri exDoc = Some 6%nat
  <-> ∃ t, t ∈ timers exBurstState ∧ handle t = 6%nat
           ∧ uri (tdocument t) = uri exDoc.
Proof.
  apply (proj1 (debounce_map_is_armed_timers (exStale ++ exBurst) exBurstState
                  ltac:(vm_compute; reflexivity))).
Defined.

(** X15.  In every reachable state the published diagnostics and the
    cached scores cover the same documents, and every published
    diagnostic has the source "tsCognilint", the severity Error or Warning,
    and a range whose string is a key of the scores cached for its
    document. *)
Theorem published_matches_cache (tr : list Label) (st : State) :
  exec tr initialState = Some st ->
  dom (diagnosticCollection st) = dom (complexityScores st)
  ∧ ∀ u ds d, diagnosticCollection st !! u = Some ds -> d ∈ ds ->
      source d = "tsCognilint"
      ∧ (severity d = Error ∨ severity d = Warning)
      ∧ ∃ cs, complexityScores st !! u = Some cs
              ∧ rangeToString (drange d) ∈ dom cs.
Proof.
  intros Hreach.
  assert (C : storeConsistent st)
    by (eapply storeConsistent_reachable; [apply storeConsistent_initial|done]).
  split; [|apply (published_cached st C)].
  apply set_eq. intros u. rewrite !elem_of_dom. apply (same_documents st C).
Qed.

Lemma published_matches_cache_witness :
  dom (diagnosticCollection exBurstState) = dom (complexityScores exBurstState).
Proof.
  apply (proj1 (published_matches_cache (exStale ++ exBurst) exBurstState
                  ltac:(vm_compute; reflexivity))).
Defined.

(** X16.  In every reachable state every armed timer was armed for a
    document in a supported language with the extension enabled, every run
    in flight is for a document in a supported language, and diagnostics
    are published only for documents for which a run has begun. *)
Theorem analysis_only_for_supported (tr : list Label) (st : State) :
  exec tr initialState = Some st ->
  (∀ t, t ∈ timers st ->
        isSupportedLanguage (tdocument t) = true ∧ enabled (tconfig t) = true)
  ∧ (∀ r, r ∈ running st -> isSupportedLanguage (rdocument r) = true)
  ∧ (∀ u, is_Some (diagnosticCollection st !! u) -> u ∈ runsStarted st).
Proof.
  intros Hreach.
  assert (C : storeConsistent st)
    by (eapply storeConsistent_reachable; [apply storeConsistent_initial|done]).
  split; [apply (timers_qualified st C)|]. split; [|apply (published_ran st C)].
  intros r Hr. by apply (running_began st C).
Qed.

Lemma analysis_only_for_supported_witness :
  mkRun exDoc 10 20 ∈ running exBurstState
  ∧ isSupportedLanguage (rdocument (mkRun exDoc 10 20)) = true.
Proof.
  assert (Hin : mkRun exDoc 10 20 ∈ running exBurstState) by (vm_compute; left).
  split; [exact Hin|].
  apply (proj1 (proj2 (analysis_only_for_supported (exStale ++ exBurst)
                         exBurstState ltac:(vm_compute; reflexivity)))).
  exact Hin.
Defined.

(** *** [deactivate], the configuration handler and [activate] *)

Lemma foldr_clearTimeout_fields (l : list (string * nat)) st :
  let st' := foldr (λ entry st, clearTimeout entry.2 st) st l in
  running st' = running st
  ∧ ∀ t, t ∈ timers st' <-> t ∈ timers st ∧ handle t ∉ l.*2.
Proof.
  induction l as [|[u h] l IH]; simpl.
  - split; [done|]. intros t. split; [|by intros [? _]].
    intros Ht. split; [done|]. by intros ?%elem_of_nil.
  - destruct IH as [IHr IHt]. split; [done|]. intros t.
    rewrite list_elem_of_filter, IHt, not_elem_of_cons. tauto.
Qed.

(** X17.  In every reachable state [deactivate] empties the published
    diagnostics, the cached scores and the timer map and leaves no timer
    armed, so that no timer can fire afterwards; the runs in flight are not
    cancelled. *)
Theorem deactivate_cancels_all_timers (tr : list Label) (st : State) :
  exec tr initialState = Some st ->
  diagnosticCollection (deactivate st) = ∅
  ∧ complexityScores (deactivate st) = ∅
  ∧ debounceTimers (deactivate st) = ∅
  ∧ timers (deactivate st) = []
  ∧ (∀ h, timerFires h (deactivate st) = None)
  ∧ running (deactivate st) = running st.
Proof.
  intros Hreach.
  assert (W : wellTimed st) by (apply wellTimed_reachable; by exists tr).
  destruct (foldr_clearTimeout_fields (map_to_list (debounceTimers st)) st)
    as [Hrun Htimers].
  assert (Hnone : timers (deactivate st) = []).
  { cbn [deactivate timers]. apply elem_of_nil_inv. intros t Ht.
    apply Htimers in Ht as [Ht Hh]. apply Hh.
    apply (timer_registered st W) in Ht. apply elem_of_map_to_list in Ht.
    apply list_elem_of_fmap. by exists (uri (tdocument t), handle t). }
  do 3 (split; [done|]). split; [done|]. split; [|done].
  intros h. unfold timerFires. by rewrite Hnone.
Qed.

Lemma deactivate_cancels_all_timers_witness :
  timers exBurstState ≠ [] ∧ timers (deactivate exBurstState) = [].
Proof.
  split; [by vm_compute|].
  apply (deactivate_cancels_all_timers (exStale ++ exBurst) exBurstState).
  vm_compute. reflexivity.
Defined.

Lemma foldl_processEditor_exec config visible : ∀ st,
  exec (editorEvents visible config) st
  = Some (foldl (processEditor config) st visible).
Proof.
  induction visible as [|[d|] l IH]; intros st; [done|..].
  - cbn [editorEvents omap list_omap fmap option_fmap option_map foldl exec step].
    apply IH.
  - apply IH.
Qed.

Lemma processActiveFile_disabled d config st :
  enabled config = false ->
  processActiveFile (Some d) config st = clearDocument (uri d) st.
Proof.
  intros He. unfold processActiveFile. rewrite He.
  by destruct (isSupportedLanguage d).
Qed.

Lemma foldl_disabled config visible : ∀ st,
  enabled config = false ->
  let st' := foldl (processEditor config) st visible in
  timers st' = timers st ∧ debounceTimers st' = debounceTimers st
  ∧ running st' = running st
  ∧ (∀ u, u ∈ visibleUris visible ->
          diagnosticCollection st' !! u = None
          ∧ complexityScores st' !! u = None)
  ∧ (∀ u, ¬ u ∈ visibleUris visible ->
          diagnosticCollection st' !! u = diagnosticCollection st !! u
          ∧ complexityScores st' !! u = complexityScores st !! u).
Proof.
  induction visible as [|e l IH]; intros st He.
  - simpl. do 3 (split; [done|]). split; [|done].
    by intros u ?%elem_of_nil.
  - cbn [foldl]. destruct (IH (processEditor config st e) He)
      as (Ht & Hm & Hr & Hin & Hout).
    assert (Hstep : timers (processEditor config st e) = timers st
              ∧ debounceTimers (processEditor config st e) = debounceTimers st
              ∧ running (processEditor config st e) = running st).
    { destruct e as [d|]; [|done]. cbn [processEditor].
      by rewrite processActiveFile_disabled. }
    destruct Hstep as (Ht1 & Hm1 & Hr1).
    split; [congruence|]. split; [congruence|]. split; [congruence|].
    destruct e as [d|]; [|by split].
    change (visibleUris (Some d :: l)) with (uri d :: visibleUris l).
    cbn [processEditor] in *. rewrite processActiveFile_disabled in * by done.
    split.
    + intros u Hu. destruct (decide (u ∈ visibleUris l)) as [Hl|Hl];
        [by apply Hin|].
      destruct (Hout u Hl) as [-> ->].
      apply elem_of_cons in Hu as [->|Hu]; [|done].
      cbn [diagnosticCollection complexityScores clearDocument].
      by rewrite !lookup_delete_eq.
    + intros u [Hne Hl]%not_elem_of_cons. destruct (Hout u Hl) as [-> ->].
      cbn [diagnosticCollection complexityScores clearDocument].
      by rewrite !lookup_delete_ne.
Qed.

(** X18.  The configuration handler acts like one [processActiveFile] event
    per visible editor that has a document, and does nothing when the
    change does not affect the extension; when the new configuration
    disables the extension, every visible document loses its published
    diagnostics and cached scores, the other documents keep theirs, and the
    armed timers, the timer map and the runs in flight stay as they are. *)
Theorem configurationChanged_as_events
    (visible : list (option TextDocument)) (config : Configuration) (st : State) :
  exec (editorEvents visible config) st
  = Some (configurationChanged true visible config st)
  ∧ configurationChanged false visible config st = st
  ∧ (enabled config = false ->
     let st' := configurationChanged true visible config st in
     timers st' = timers st ∧ debounceTimers st' = debounceTimers st
     ∧ running st' = running st
     ∧ (∀ u, u ∈ visibleUris visible ->
             diagnosticCollection st' !! u = None
             ∧ complexityScores st' !! u = None)
     ∧ (∀ u, ¬ u ∈ visibleUris visible ->
             diagnosticCollection st' !! u = diagnosticCollection st !! u
             ∧ complexityScores st' !! u = complexityScores st !! u)).
Proof.
  split; [apply foldl_processEditor_exec|]. split; [done|].
  intros He. by apply foldl_disabled.
Qed.

Lemma configurationChanged_as_events_witness :
  timers (configurationChanged true [Some exDoc; None] exOff exBurstState)
  = timers exBurstState
  ∧ diagnosticCollection
      (configurationChanged true [Some exDoc; None] exOff exBurstState)
      !! uri exDoc = None.
Proof.
  destruct (proj2 (proj2 (configurationChanged_as_events
                            [Some exDoc; None] exOff exBurstState)) eq_refl)
    as (Ht & _ & _ & Hin & _).
  split; [exact Ht|]. apply Hin. left.
Defined.

Lemma processEditor_store config st e :
  diagnosticCollection st = ∅ -> complexityScores st = ∅ ->
  diagnosticCollection (processEditor config st e) = ∅
  ∧ complexityScores (processEditor config st e) = ∅
  ∧ running (processEditor config st e) = running st.
Proof.
  intros Hd Hs. destruct e as [d|]; [|done]. cbn [processEditor].
  unfold processActiveFile.
  destruct (isSupportedLanguage d); cbn [negb];
    [|cbn; by rewrite Hd, Hs, !delete_empty].
  destruct (enabled config); cbn [negb];
    [|cbn; by rewrite Hd, Hs, !delete_empty].
  by destruct (debounceTimers st !! uri d).
Qed.

Lemma foldl_processEditor_store config visible : ∀ st,
  diagnosticCollection st = ∅ -> complexityScores st = ∅ ->
  diagnosticCollection (foldl (processEditor config) st visible) = ∅
  ∧ complexityScores (foldl (processEditor config) st visible) = ∅
  ∧ running (foldl (processEditor config) st visible) = running st.
Proof.
  induction visible as [|e l IH]; intros st Hd Hs; [done|].
  cbn [foldl]. destruct (processEditor_store config st e Hd Hs) as (Hd1 & Hs1 & Hr1).
  destruct (IH _ Hd1 Hs1) as (? & ? & ?). split; [done|]. split; [done|].
  congruence.
Qed.

Lemma processEditor_timersOf u config st e :
  wellTimed st ->
  wellTimed (processEditor config st e)
  ∧ (timersOf u (processEditor config st e) ≠ []
     <-> timersOf u st ≠ []
         ∨ (enabled config = true
            ∧ ∃ d, e = Some d ∧ uri d = u ∧ isSupportedLanguage d = true)).
Proof.
  intros W. destruct e as [d|]; cbn [processEditor].
  - split; [by apply wellTimed_processActiveFile|].
    destruct (decide (uri d = u)) as [<-|Hne].
    + destruct (isSupportedLanguage d) eqn:Hs, (enabled config) eqn:He.
      * destruct (timersOf_armed d config st W Hs He) as [-> _].
        split; [|done]. intros _. right. split; [done|]. by exists d.
      * unfold processActiveFile. rewrite Hs, He. cbn [negb].
        split; [by left|]. by intros [?|[? _]].
      * unfold processActiveFile. rewrite Hs. cbn [negb].
        split; [by left|]. intros [?|[_ (d' & [= <-] & _ & ?)]]; [done|congruence].
      * unfold processActiveFile. rewrite Hs. cbn [negb].
        split; [by left|]. by intros [?|[? _]].
    + rewrite timersOf_processActiveFile_other by (done || (simpl; congruence)).
      split; [by left|]. intros [?|[_ (d' & [= <-] & ? & _)]]; done.
  - split; [done|]. split; [by left|]. intros [?|[_ (d & ? & _)]]; done.
Qed.

Lemma foldl_processEditor_timersOf u config visible : ∀ st,
  wellTimed st ->
  timersOf u (foldl (processEditor config) st visible) ≠ []
  <-> timersOf u st ≠ []
      ∨ (enabled config = true
         ∧ ∃ d, Some d ∈ visible ∧ uri d = u ∧ isSupportedLanguage d = true).
Proof.
  induction visible as [|e l IH]; intros st W.
  - simpl. split; [by left|]. intros [?|[_ (d & Hd & _)]]; [done|].
    by apply elem_of_nil in Hd.
  - cbn [foldl]. destruct (processEditor_timersOf u config st e W) as [W1 H1].
    rewrite (IH _ W1), H1. split.
    + intros [[?|[He (d & -> & ? & ?)]]|[He (d & Hd & ? & ?)]].
      * by left.
      * right. split; [done|]. exists d. split; [left|done].
      * right. split; [done|]. exists d. split; [by right|done].
    + intros [?|[He (d & Hd & Hu & Hs)]]; [by left; left|].
      apply elem_of_cons in Hd as [<-|Hd].
      * left. right. split; [done|]. by exists d.
      * right. split; [done|]. by exists d.
Qed.

(** X19.  Activation from the initial state acts like one
    [processActiveFile] event per visible editor that has a document; it
    leaves both collections empty and no run in flight, and it arms a timer
    for a document exactly when the extension is enabled and a visible
    editor shows that document in a supported language, one timer at most
    per document. *)
Theorem activate_arms_visible_documents
    (visible : list (option TextDocument)) (config : Configuration) :
  exec (editorEvents visible config) initialState
  = Some (activate visible config initialState)
  ∧ diagnosticCollection (activate visible config initialState) = ∅
  ∧ complexityScores (activate visible config initialState) = ∅
  ∧ running (activate visible config initialState) = []
  ∧ ∀ u, (timersOf u (activate visible config initialState) ≠ []
          <-> enabled config = true
              ∧ ∃ d, Some d ∈ visible ∧ uri d = u
                     ∧ isSupportedLanguage d = true)
         ∧ (length (timersOf u (activate visible config initialState)) <= 1)%nat.
Proof.
  destruct (foldl_processEditor_store config visible initialState eq_refl eq_refl)
    as (Hd & Hs & Hr).
  assert (E : activate visible config initialState
              = foldl (processEditor config) initialState visible).
  { unfold activate.
    change (mkState ∅ (complexityScores initialState) (debounceTimers initialState)
              (timers initialState) (nextHandle initialState) (clock initialState)
              (running initialState) (runsStarted initialState)
              (errorLog initialState)) with initialState.
    destruct (foldl (processEditor config) initialState visible).
    cbn in Hd, Hs |- *. by subst. }
  rewrite E. split; [apply foldl_processEditor_exec|]. do 3 (split; [done|]).
  intros u. split.
  - rewrite (foldl_processEditor_timersOf u config visible initialState
               wellTimed_initial).
    split; [|by right]. by intros [?|?].
  - apply timersOf_at_most_one. apply wellTimed_reachable.
    exists (editorEvents visible config). apply foldl_processEditor_exec.
Qed.

Lemma activate_arms_visible_documents_witness :
  timersOf (uri exDoc) (activate [Some exDoc; None; Some exDoc] exOn initialState)
  ≠ [].
Proof.
  apply (proj1 (proj2 (proj2 (proj2 (proj2
           (activate_arms_visible_documents [Some exDoc; None; Some exDoc] exOn))))
           (uri exDoc))).
  split; [reflexivity|]. exists exDoc. split; [left|]. split; reflexivity.
Defined.
